(** * Ollama VS Code extension: request construction and streaming pipeline

    A shallow embedding of the TypeScript sources
      - [ollamaApi.ts]            (class [OllamaApi]),
      - [chatProvider.ts]         (class [OllamaChatProvider]),
      - [completionProvider.ts]   (class [OllamaCompletionProvider]),
    followed by the properties of the specification that concern them.

    Conventions of the embedding.
      - A JavaScript string is the list of its UTF-16 code units
        ([jsstring = list N]); [str] turns a literal into such a list.
      - JavaScript numbers that are used as indices and counts are integers
        of [Z]; fractional values of the settings are not represented.
      - A method that can throw returns an [option]; [None] is the throw.
      - An [async] method is cut at its [await]: the part before it, and one
        continuation per way the awaited promise settles. *)

From Stdlib Require Import ZArith NArith Ascii String List Lia.
From stdpp Require Import base option list relations.

Local Open Scope Z_scope.

(** ** JavaScript strings *)

Abbreviation jschar := N (only parsing).
Abbreviation jsstring := (list N) (only parsing).

Definition str (s : string) : jsstring :=
  map N_of_ascii (list_ascii_of_string s).

Arguments str : simpl never.

Module Js.

Definition LF : jschar := 10%N.
Definition SLASH : jschar := 47%N.

(** White space and line terminators of ECMAScript, the code units that
    [String.prototype.trim] removes. *)
Definition is_ws (c : jschar) : bool :=
  ((9 <=? c) && (c <=? 13) || (c =? 32) || (c =? 160) || (c =? 5760)
   || (8192 <=? c) && (c <=? 8202) || (c =? 8232) || (c =? 8233)
   || (c =? 8239) || (c =? 8287) || (c =? 12288) || (c =? 65279))%N.

Fixpoint trimStart (s : jsstring) : jsstring :=
  match s with
  | c :: r => if is_ws c then trimStart r else s
  | [] => []
  end.

Definition trimEnd (s : jsstring) : jsstring :=
  rev (trimStart (rev s)).

Definition trim (s : jsstring) : jsstring := trimEnd (trimStart s).

(** [s.split(sep)] for a separator of one code unit; the result is never
    empty, [[].split(sep)] is the list holding the empty string. *)
Fixpoint split (sep : jschar) (s : jsstring) : list jsstring :=
  match s with
  | [] => [[]]
  | c :: r =>
      if (c =? sep)%N then [] :: split sep r
      else match split sep r with
           | h :: t => (c :: h) :: t
           | [] => [[c]]
           end
  end.

Fixpoint join (sep : jschar) (l : list jsstring) : jsstring :=
  match l with
  | [] => []
  | [x] => x
  | x :: r => x ++ sep :: join sep r
  end.

(** [s.indexOf(c)], with JavaScript's [-1] when [c] does not occur. *)
Fixpoint indexOf (c : jschar) (s : jsstring) : Z :=
  match s with
  | [] => -1
  | x :: r =>
      if (x =? c)%N then 0
      else let i := indexOf c r in if i <? 0 then -1 else i + 1
  end.

Definition clamp (len i : Z) : Z := Z.min (Z.max i 0) len.

(** [s.substring(a, b)]: both ends are clamped to [0 .. length] and
    swapped when they come in the wrong order. *)
Definition substring (s : jsstring) (a b : Z) : jsstring :=
  let len := Z.of_nat (length s) in
  let a' := clamp len a in
  let b' := clamp len b in
  let lo := Z.min a' b' in
  let hi := Z.max a' b' in
  take (Z.to_nat (hi - lo)) (drop (Z.to_nat lo) s).

(** [s.substring(a)] *)
Definition substring_from (s : jsstring) (a : Z) : jsstring :=
  substring s a (Z.of_nat (length s)).

(** [arr.slice(start)] for an integer [start]: a negative start counts
    from the end; [-0] is [0], so [slice(-0)] is the whole array. *)
Definition slice {A} (l : list A) (start : Z) : list A :=
  let len := Z.of_nat (length l) in
  let k := if start <? 0 then Z.max (len + start) 0 else Z.min start len in
  drop (Z.to_nat k) l.

(** The class [\w] of regular expressions. *)
Definition is_word (c : jschar) : bool :=
  ((48 <=? c) && (c <=? 57) || (65 <=? c) && (c <=? 90) || (c =? 95)
   || (97 <=? c) && (c <=? 122))%N.

Fixpoint skip_while (p : jschar -> bool) (s : jsstring) : jsstring :=
  match s with
  | c :: r => if p c then skip_while p r else s
  | [] => []
  end.

Definition eqb (a b : jsstring) : bool := bool_decide (a = b).

End Js.

(** ** The editor's documents (the part of the [vscode] API that is used) *)

Record TextDocument := {
  lines : list jsstring;
  languageId : jsstring;
  fileName : jsstring
}.

Record Position := { line : Z; character : Z }.

Definition lineCount (d : TextDocument) : Z := Z.of_nat (length (lines d)).

(** [document.lineAt(i).text]; the editor throws on a line that does not
    exist. *)
Definition lineAt (d : TextDocument) (i : Z) : option jsstring :=
  if (0 <=? i) && (i <? lineCount d) then lines d !! Z.to_nat i else None.

(** The last [n] elements of a list. *)
Definition keep_last {A} (n : nat) (l : list A) : list A :=
  drop (length l - n) l.

(** The lines [a .. b] of a document, for a line [a] that is not negative. *)
Definition lines_between (d : TextDocument) (a b : Z) : list jsstring :=
  take (Z.to_nat (b - a + 1)) (drop (Z.to_nat a) (lines d)).

(** The values [a, a+1, .., b] of [for (let i = a; i <= b; i++)]. *)
Definition for_range (a b : Z) : list Z :=
  map (fun k => a + Z.of_nat k) (seq 0 (Z.to_nat (b - a + 1))).

(** ** completionProvider.ts *)

Module OllamaCompletionProvider.

Definition getContextLines (document : TextDocument) (position : Position)
  : option (list jsstring) :=
  let startLine := Z.max 0 (line position - 10) in
  let endLine := Z.min (lineCount document - 1) (line position + 5) in
  mapM (fun i =>
          if i =? line position
          then t ← lineAt document i;
               Some (Js.substring t 0 (character position))
          else lineAt document i)
       (for_range startLine endLine).

(** [fileName.split('/').pop() || 'file'] *)
Definition baseName (f : jsstring) : jsstring :=
  match last (Js.split Js.SLASH f) with
  | Some (c :: r) => c :: r
  | _ => str "file"
  end.

Definition buildPrompt (document : TextDocument) (contextLines : list jsstring)
  : jsstring :=
  let language := languageId document in
  str "You are an AI code completion assistant. Complete the following "
  ++ language ++ str " code." ++ [Js.LF; Js.LF]
  ++ str "File: " ++ baseName (fileName document) ++ [Js.LF]
  ++ str "Language: " ++ language ++ [Js.LF; Js.LF]
  ++ str "Code context:" ++ [Js.LF]
  ++ str "```" ++ language ++ [Js.LF]
  ++ Js.join Js.LF contextLines ++ [Js.LF]
  ++ str "```" ++ [Js.LF; Js.LF]
  ++ str "Complete the code starting from where it left off. Only provide the completion, no explanations or additional context.".

Definition getSuffix (document : TextDocument) (position : Position)
  : option jsstring :=
  currentLine ← lineAt document (line position);
  let suffixOnLine := Js.substring_from currentLine (character position) in
  let maxLines := Z.min (lineCount document - 1) (line position + 3) in
  rest ← mapM (lineAt document) (for_range (line position + 1) maxLines);
  Some (Js.trim (Js.join Js.LF (suffixOnLine :: rest))).

(** [s.replace(/^```[\w]*\n?/, '')]: the opening fence, the word that
    follows it (greedy) and one line feed if there is one. *)
Definition strip_fence_open (s : jsstring) : jsstring :=
  match s with
  | 96%N :: 96%N :: 96%N :: r =>
      match Js.skip_while Js.is_word r with
      | 10%N :: r' => r'
      | r' => r'
      end
  | _ => s
  end.

(** [s.replace(/\n?```$/, '')]: the pattern has no [m] flag, so [$] is the
    end of the string; the leftmost position where the rest of the string
    is the fence, with or without a line feed before it, is cut. *)
Fixpoint strip_fence_close (s : jsstring) : jsstring :=
  match s with
  | [] => []
  | c :: r =>
      if Js.eqb s (Js.LF :: str "```") || Js.eqb s (str "```") then []
      else c :: strip_fence_close r
  end.

(** [lines.map((line, index) => index === 0 ? line.trimStart() : line)] *)
Definition cleanLines (l : list jsstring) : list jsstring :=
  match l with
  | first :: others => Js.trimStart first :: others
  | [] => []
  end.

(** The text of [processCompletion] up to the echo check. *)
Definition cleanCompletion (completion : jsstring) : jsstring :=
  let processed := Js.trim completion in
  let processed := strip_fence_close (strip_fence_open processed) in
  let lines := Js.split Js.LF processed in
  let processed := Js.join Js.LF (cleanLines lines) in
  let firstLineEnd := Js.indexOf Js.LF processed in
  if negb (firstLineEnd =? -1) then Js.substring processed 0 firstLineEnd
  else processed.

Definition processCompletion (completion : jsstring)
    (document : TextDocument) (position : Position) : option jsstring :=
  match completion with
  | [] => Some []
  | _ =>
      let processed := cleanCompletion completion in
      currentLineText ← lineAt document (line position);
      let linePrefix := Js.substring currentLineText 0 (character position) in
      if Js.eqb (Js.trim processed) (Js.trim linePrefix) then Some []
      else Some processed
  end.

(** The prompt and the suffix that [getCompletion] sends. *)
Definition completionRequest (document : TextDocument) (position : Position)
  : option (jsstring * jsstring) :=
  contextLines ← getContextLines document position;
  let prompt := buildPrompt document contextLines in
  suffix ← getSuffix document position;
  Some (prompt, suffix).

(** The prefix window in the words of the specification: the lines from
    [max(0, line - 10)] through the cursor's line, that line cut at the
    cursor column, and nothing after it. *)
Definition spec_prefix_window (document : TextDocument)
    (position : Position) : option (list jsstring) :=
  t ← lineAt document (line position);
  Some (lines_between document (Z.max 0 (line position - 10))
          (line position - 1)
        ++ [Js.substring t 0 (character position)]).

(** The raw response of the scenario of the specification: the text
    [return x] inside a code fence tagged [js]. *)
Definition fenced_echo : jsstring :=
  str "```js" ++ [Js.LF] ++ str "return x" ++ [Js.LF] ++ str "```".

End OllamaCompletionProvider.

(** ** JSON texts, as [JSON.parse] reads them

    [JSON.parse] belongs to the language, not to the repository; it is
    given here as a lexer (one code unit at a time) followed by a pushdown
    automaton over the tokens, both total. *)

Module Json.

#[warnings="-register-all"] Inductive value :=
| Null
| Bool (b : bool)
| Num (m e : Z)                       (* the number [m * 10^e] *)
| Str (s : jsstring)
| Arr (elements : list value)
| Obj (members : list (jsstring * value)).

Inductive token :=
| TLBrace | TRBrace | TLBrack | TRBrack | TColon | TComma
| TScalar (v : value).

(** *** Numbers *)

Definition is_digit (c : jschar) : bool := ((48 <=? c) && (c <=? 57))%N.

Fixpoint span_digits (s : jsstring) : list Z * jsstring :=
  match s with
  | c :: r =>
      if is_digit c
      then let '(ds, r') := span_digits r in (Z.of_N (c - 48) :: ds, r')
      else ([], s)
  | [] => ([], [])
  end.

Definition digits_value (ds : list Z) : Z :=
  fold_left (fun acc d => 10 * acc + d) ds 0.

(** A JSON number: an optional minus sign; an integer part that is [0]
    or starts with a digit other than [0]; an optional fraction, a dot and
    at least one digit; an optional exponent, [e] or [E], an optional
    sign and at least one digit. *)
Definition parse_number (s : jsstring) : option value :=
  let '(neg, s) :=
    match s with 45%N :: r => (true, r) | _ => (false, s) end in
  let '(ip, s) := span_digits s in
  match ip with
  | [] => None
  | d :: ds =>
      if (d =? 0) && negb (bool_decide (ds = [])) then None
      else
        fr ← match s with
             | 46%N :: r =>
                 let '(fp, r') := span_digits r in
                 match fp with [] => None | _ => Some (fp, r') end
             | _ => Some ([], s)
             end;
        let '(fp, s) := fr in
        ex ← match s with
             | c :: r =>
                 if (c =? 101)%N || (c =? 69)%N then
                   let '(eneg, r) :=
                     match r with
                     | 45%N :: r' => (true, r')
                     | 43%N :: r' => (false, r')
                     | _ => (false, r)
                     end in
                   let '(ep, r') := span_digits r in
                   match ep, r' with
                   | _ :: _, [] =>
                       Some (if eneg then - digits_value ep
                             else digits_value ep)
                   | _, _ => None
                   end
                 else None
             | [] => Some 0
             end;
        let m := digits_value (ip ++ fp) in
        Some (Num (if neg then - m else m) (ex - Z.of_nat (length fp)))
  end.

Definition parse_word (s : jsstring) : option value :=
  if Js.eqb s (str "null") then Some Null
  else if Js.eqb s (str "true") then Some (Bool true)
  else if Js.eqb s (str "false") then Some (Bool false)
  else None.

(** *** The lexer *)

Inductive lstate :=
| LIdle
| LStr (acc : jsstring)               (* inside a string; [acc] reversed *)
| LEsc (acc : jsstring)               (* after a backslash *)
| LHex (acc : jsstring) (hs : list N) (* after [\u], the digits read *)
| LNum (acc : jsstring)               (* inside a number; [acc] reversed *)
| LWord (acc : jsstring).             (* inside [null], [true], [false] *)

Definition is_json_ws (c : jschar) : bool :=
  ((c =? 32) || (c =? 9) || (c =? 10) || (c =? 13))%N.

Definition is_num_char (c : jschar) : bool :=
  (is_digit c || (c =? 45) || (c =? 43) || (c =? 46) || (c =? 101)
   || (c =? 69))%N.

Definition is_lower (c : jschar) : bool := ((97 <=? c) && (c <=? 122))%N.

Definition hex_digit (c : jschar) : option N :=
  if is_digit c then Some (c - 48)%N
  else if ((97 <=? c) && (c <=? 102))%N then Some (c - 87)%N
  else if ((65 <=? c) && (c <=? 70))%N then Some (c - 55)%N
  else None.

(** The escapes of one letter: quote, backslash, slash, [b], [f], [n],
    [r], [t]. *)
Definition escape (c : jschar) : option jschar :=
  if (c =? 34)%N then Some 34%N
  else if (c =? 92)%N then Some 92%N
  else if (c =? 47)%N then Some 47%N
  else if (c =? 98)%N then Some 8%N
  else if (c =? 102)%N then Some 12%N
  else if (c =? 110)%N then Some 10%N
  else if (c =? 114)%N then Some 13%N
  else if (c =? 116)%N then Some 9%N
  else None.

(** What the idle lexer does with one code unit: a token, a new state,
    or an error. *)
Definition idle (c : jschar) : option (list token * lstate) :=
  if is_json_ws c then Some ([], LIdle)
  else if (c =? 123)%N then Some ([TLBrace], LIdle)
  else if (c =? 125)%N then Some ([TRBrace], LIdle)
  else if (c =? 91)%N then Some ([TLBrack], LIdle)
  else if (c =? 93)%N then Some ([TRBrack], LIdle)
  else if (c =? 58)%N then Some ([TColon], LIdle)
  else if (c =? 44)%N then Some ([TComma], LIdle)
  else if (c =? 34)%N then Some ([], LStr [])
  else if is_digit c || (c =? 45)%N then Some ([], LNum [c])
  else if is_lower c then Some ([], LWord [c])
  else None.

Definition lex_step (st : lstate) (c : jschar)
  : option (list token * lstate) :=
  match st with
  | LIdle => idle c
  | LStr acc =>
      if (c =? 34)%N then Some ([TScalar (Str (rev acc))], LIdle)
      else if (c =? 92)%N then Some ([], LEsc acc)
      else if (c <? 32)%N then None
      else Some ([], LStr (c :: acc))
  | LEsc acc =>
      if (c =? 117)%N then Some ([], LHex acc [])
      else e ← escape c; Some ([], LStr (e :: acc))
  | LHex acc hs =>
      h ← hex_digit c;
      match hs with
      | [h1; h2; h3] =>
          Some ([], LStr ((((h1 * 16 + h2) * 16 + h3) * 16 + h)%N :: acc))
      | _ => Some ([], LHex acc (hs ++ [h]))
      end
  | LNum acc =>
      if is_num_char c then Some ([], LNum (c :: acc))
      else v ← parse_number (rev acc);
           '(ts, st') ← idle c;
           Some (TScalar v :: ts, st')
  | LWord acc =>
      if is_lower c then Some ([], LWord (c :: acc))
      else v ← parse_word (rev acc);
           '(ts, st') ← idle c;
           Some (TScalar v :: ts, st')
  end.

Definition lex_end (st : lstate) : option (list token) :=
  match st with
  | LIdle => Some []
  | LNum acc => v ← parse_number (rev acc); Some [TScalar v]
  | LWord acc => v ← parse_word (rev acc); Some [TScalar v]
  | LStr _ | LEsc _ | LHex _ _ => None
  end.

Fixpoint lex (st : lstate) (s : jsstring) : option (list token) :=
  match s with
  | [] => lex_end st
  | c :: r =>
      '(ts, st') ← lex_step st c;
      rest ← lex st' r;
      Some (ts ++ rest)
  end.

(** *** The parser *)

Inductive frame :=
| InArr (done : list value)                       (* reversed *)
| InObj (done : list (jsstring * value)) (key : jsstring).

Inductive pstate :=
| PValue (stk : list frame)           (* a value must come *)
| PArrFirst (stk : list frame)        (* after [[]: a value or []] *)
| PArrNext (stk : list frame) (done : list value)
| PObjFirst (stk : list frame)        (* after [{]: a key or [}] *)
| PObjKey (stk : list frame) (done : list (jsstring * value))
| PObjColon (stk : list frame) (done : list (jsstring * value))
            (key : jsstring)
| PObjNext (stk : list frame) (done : list (jsstring * value))
| PDone (v : value).

(** A value is complete: it goes where the innermost open frame says. *)
Definition complete (stk : list frame) (v : value) : pstate :=
  match stk with
  | [] => PDone v
  | InArr done :: stk' => PArrNext stk' (v :: done)
  | InObj done key :: stk' => PObjNext stk' ((key, v) :: done)
  end.

Definition parse_step (st : pstate) (t : token) : option pstate :=
  match st, t with
  | PValue stk, TScalar v => Some (complete stk v)
  | PValue stk, TLBrack => Some (PArrFirst stk)
  | PValue stk, TLBrace => Some (PObjFirst stk)
  | PArrFirst stk, TRBrack => Some (complete stk (Arr []))
  | PArrFirst stk, TScalar v => Some (complete (InArr [] :: stk) v)
  | PArrFirst stk, TLBrack => Some (PArrFirst (InArr [] :: stk))
  | PArrFirst stk, TLBrace => Some (PObjFirst (InArr [] :: stk))
  | PArrNext stk done, TComma => Some (PValue (InArr done :: stk))
  | PArrNext stk done, TRBrack => Some (complete stk (Arr (rev done)))
  | PObjFirst stk, TRBrace => Some (complete stk (Obj []))
  | PObjFirst stk, TScalar (Str k) => Some (PObjColon stk [] k)
  | PObjKey stk done, TScalar (Str k) => Some (PObjColon stk done k)
  | PObjColon stk done k, TColon => Some (PValue (InObj done k :: stk))
  | PObjNext stk done, TComma => Some (PObjKey stk done)
  | PObjNext stk done, TRBrace => Some (complete stk (Obj (rev done)))
  | _, _ => None
  end.

Fixpoint parse_tokens (st : pstate) (ts : list token) : option pstate :=
  match ts with
  | [] => Some st
  | t :: r => st' ← parse_step st t; parse_tokens st' r
  end.

(** [JSON.parse(text)]; [None] is the [SyntaxError]. *)
Definition parse (text : jsstring) : option value :=
  ts ← lex LIdle text;
  st ← parse_tokens (PValue []) ts;
  match st with PDone v => Some v | _ => None end.

(** *** Values in conditions and property reads *)

(** The number [m * 10^e] is read as [0] by a double when it is [0] or
    at most half the least positive double, [2^-1075]. *)
Definition num_is_zero (m e : Z) : bool :=
  (m =? 0) || ((e <? 0) && (Z.abs m * 2 ^ 1075 <=? 10 ^ (- e))).

Definition truthy (v : value) : bool :=
  match v with
  | Null => false
  | Bool b => b
  | Num m e => negb (num_is_zero m e)
  | Str s => negb (bool_decide (s = []))
  | Arr _ | Obj _ => true
  end.

(** Of two members with one key, [JSON.parse] keeps the later one. *)
Fixpoint lookup (k : jsstring) (ms : list (jsstring * value))
  : option value :=
  match ms with
  | [] => None
  | (k', v) :: r =>
      match lookup k r with
      | Some v' => Some v'
      | None => if Js.eqb k' k then Some v else None
      end
  end.

(** [v.k] for a key [k] that no prototype defines ([message], [content]):
    [None] is the [TypeError] of reading a property of [null], and
    [Some None] is [undefined]. *)
Definition get (v : value) (k : jsstring) : option (option value) :=
  match v with
  | Null => None
  | Obj ms => Some (lookup k ms)
  | _ => Some None
  end.

End Json.

(** JSON texts of the examples are written with an apostrophe where the
    wire has a double quote. *)
Definition wire (s : string) : jsstring :=
  map (fun c => if (c =? 39)%N then 34%N else c) (str s).

(** ** ollamaApi.ts *)

Inductive Role := system | user | assistant.

Record OllamaMessage := { role : Role; content : jsstring }.

(** The request of a chat; its [options] are constants of the caller and
    are left out. *)
Record OllamaChatRequest := {
  model : jsstring;
  messages : list OllamaMessage
}.

Module OllamaApi.

(** What the response stream of [axios.post(.., {responseType: 'stream'})]
    emits, in order; a chunk is given by the text of [chunk.toString()]. *)
Inductive stream_event :=
| data (chunk : jsstring)
| end_
| error (e : jsstring).

(** How [await axios.post(..)] settles: it throws, or it yields a
    response whose stream will emit the given events. *)
Inductive post_result :=
| post_rejected (e : jsstring)
| post_response (events : list stream_event).

(** What the caller of [streamChatCompletion] observes, in order: the
    settling of the returned promise and the calls of [onChunk]. *)
Inductive action :=
| resolve
| reject (message : jsstring)
| onChunk (chunk : Json.value).

(** The body of the [for] loop of the ['data'] listener. Both a text that
    [JSON.parse] refuses and a property read on [null] end in the empty
    [catch]. *)
Definition on_line (line : jsstring) : list Json.value :=
  match Json.parse line with
  | None => []
  | Some data_ =>
      match Json.get data_ (str "message") with
      | None => []
      | Some None => []
      | Some (Some message) =>
          if Json.truthy message then
            match Json.get message (str "content") with
            | Some (Some content_) =>
                if Json.truthy content_ then [content_] else []
            | _ => []
            end
          else []
      end
  end.

(** The ['data'] listener: the values [onChunk] is called with. *)
Definition on_data (chunk : jsstring) : list Json.value :=
  let lines :=
    filter (fun line => Js.trim line <> []) (Js.split Js.LF chunk) in
  flat_map on_line lines.

(** The listeners that [streamChatCompletion] registers, run over the
    events of the stream: ['data'] calls [onChunk], ['end'] does nothing
    and ends the stream, and ['error'] has no listener. *)
Fixpoint emit (events : list stream_event) : list action :=
  match events with
  | [] => []
  | data chunk :: rest => map onChunk (on_data chunk) ++ emit rest
  | end_ :: _ => []
  | error _ :: _ => []
  end.

(** The contents that the listeners of a stream pass on, in order. *)
Fixpoint contents (events : list stream_event) : list Json.value :=
  match events with
  | data chunk :: rest => on_data chunk ++ contents rest
  | _ => []
  end.

(** [streamChatCompletion(request, onChunk)], after the request is sent.
    When [axios.post] throws, the [catch] rethrows and the promise is
    rejected. Otherwise the two listeners are registered and the function
    returns, which resolves the promise; the stream emits its events
    afterwards, in later turns of the event loop. *)
Definition streamChatCompletion (r : post_result) : list action :=
  match r with
  | post_rejected e =>
      [reject (str "Failed to stream chat completion: " ++ e)]
  | post_response events => resolve :: emit events
  end.

End OllamaApi.

(** ** chatProvider.ts *)

Module OllamaChatProvider.

Import OllamaApi.

Inductive WebviewMessage :=
| updateMessages (messages : list OllamaMessage)
| showTyping
| hideTyping.

(** The fields of the provider, and [posted], the messages given to
    [webview.postMessage] so far, oldest first. [view] tells whether
    [_view] is set. *)
Record t := {
  chatHistory : list OllamaMessage;
  maxHistory : Z;
  view : bool;
  posted : list WebviewMessage
}.

Definition set_history (h : list OllamaMessage) (p : t) : t :=
  {| chatHistory := h; maxHistory := maxHistory p; view := view p;
     posted := posted p |}.

Definition postMessage (m : WebviewMessage) (p : t) : t :=
  if view p
  then {| chatHistory := chatHistory p; maxHistory := maxHistory p;
          view := view p; posted := posted p ++ [m] |}
  else p.

Definition updateWebview (p : t) : t :=
  postMessage (updateMessages (chatHistory p)) p.

Definition showTypingIndicator : t -> t := postMessage showTyping.
Definition hideTypingIndicator : t -> t := postMessage hideTyping.

Definition addMessageToHistory (message : OllamaMessage) (p : t) : t :=
  let h := chatHistory p ++ [message] in
  if Z.of_nat (length h) >? maxHistory p * 2
  then set_history (Js.slice h (- maxHistory p * 2)) p
  else set_history h p.

(** [this.chatHistory[this.chatHistory.length - 1].content = text],
    under its guard [this.chatHistory.length > 0]. *)
Definition set_last_content (text : jsstring) (p : t) : t :=
  if 0 <? Z.of_nat (length (chatHistory p))
  then set_history
         (alter (fun m => {| role := role m; content := text |})
                (length (chatHistory p) - 1)%nat (chatHistory p)) p
  else p.

Definition clearChat (p : t) : t := updateWebview (set_history [] p).

(** [handleSendMessage] up to its [await]: the request given to
    [streamChatCompletion], or [None] when the method returns at once. *)
Definition send (defaultModel userMessage : jsstring) (p : t)
  : t * option OllamaChatRequest :=
  match Js.trim userMessage with
  | [] => (p, None)
  | text =>
      let userMsg := {| role := user; content := text |} in
      let p := addMessageToHistory userMsg p in
      let p := updateWebview p in
      let p := showTypingIndicator p in
      let messages := chatHistory p in
      let assistantMsg := {| role := assistant; content := [] |} in
      let p := addMessageToHistory assistantMsg p in
      (p, Some {| model := defaultModel; messages := messages |})
  end.

(** The callback given to [streamChatCompletion]; [assistantMessage] is
    the variable of the enclosing call that the callback updates. *)
Definition chunk_callback (chunk : jsstring) (st : jsstring * t)
  : jsstring * t :=
  let '(assistantMessage, p) := st in
  let assistantMessage := assistantMessage ++ chunk in
  (assistantMessage, updateWebview (set_last_content assistantMessage p)).

(** After the [await], when the promise is resolved. *)
Definition resolved (st : jsstring * t) : jsstring * t :=
  let '(assistantMessage, p) := st in
  let p := set_last_content assistantMessage p in
  (assistantMessage, updateWebview (hideTypingIndicator p)).

Definition pop_assistant (h : list OllamaMessage) : list OllamaMessage :=
  match last h with
  | Some {| role := assistant |} => take (length h - 1)%nat h
  | _ => h
  end.

(** After the [await], when the promise is rejected with an [Error] of
    the given message: the [catch] block and what follows it. *)
Definition rejected (message : jsstring) (st : jsstring * t)
  : jsstring * t :=
  let '(assistantMessage, p) := st in
  let p := set_history (pop_assistant (chatHistory p)) p in
  let errorMsg :=
    {| role := assistant; content := str "Error: " ++ message |} in
  let p := addMessageToHistory errorMsg p in
  (assistantMessage, updateWebview (hideTypingIndicator p)).

(** One observation of the stream, as it reaches the provider. The
    callback is declared for strings; a content that is no string, which
    the declared type of the response excludes, is not represented. *)
Definition react (a : action) (st : jsstring * t) : option (jsstring * t) :=
  match a with
  | resolve => Some (resolved st)
  | reject message => Some (rejected message st)
  | onChunk (Json.Str chunk) => Some (chunk_callback chunk st)
  | onChunk _ => None
  end.

Fixpoint react_all (l : list action) (st : jsstring * t)
  : option (jsstring * t) :=
  match l with
  | [] => Some st
  | a :: r => st' ← react a st; react_all r st'
  end.

(** The calls of the callback for the given texts, in order. *)
Definition fragments (fs : list jsstring) : list action :=
  map (fun f => onChunk (Json.Str f)) fs.

(** One whole exchange with nothing else in between: the call of
    [handleSendMessage] and everything its stream delivers. *)
Definition handleSendMessage (defaultModel userMessage : jsstring)
    (r : post_result) (p : t) : option t :=
  match send defaultModel userMessage p with
  | (p, None) => Some p
  | (p, Some _) => snd <$> react_all (streamChatCompletion r) ([], p)
  end.

(** The two turns that [send] appends. *)
Definition userTurn (text : jsstring) : OllamaMessage :=
  {| role := user; content := Js.trim text |}.

Definition placeholder : OllamaMessage :=
  {| role := assistant; content := [] |}.

(** The provider as its constructor leaves it, for a given setting of
    [ollama.chat.maxHistory]. *)
Definition init (maxHistory : Z) (view : bool) : t :=
  {| chatHistory := []; maxHistory := maxHistory; view := view;
     posted := [] |}.

(** What can still reach the provider from a stream that was opened: the
    continuation of the [await] and calls of the callback. *)
Definition late_delivery (a : action) : Prop :=
  a = resolve \/ exists f, a = onChunk (Json.Str f).

(** Two histories with the same turns, but for the content of the last
    one. *)
Definition same_but_last_content (h h' : list OllamaMessage) : Prop :=
  map role h' = map role h
  /\ take (length h - 1) h' = take (length h - 1) h.

(** Exchanges one after the other, each one over before the next. *)
Fixpoint handleSendMessages (defaultModel : jsstring)
    (xs : list (jsstring * post_result)) (p : t) : option t :=
  match xs with
  | [] => Some p
  | (userMessage, r) :: rest =>
      p' ← handleSendMessage defaultModel userMessage r p;
      handleSendMessages defaultModel rest p'
  end.

(** The texts of a stream's contents, when all of them are strings. *)
Definition texts (vs : list Json.value) : option (list jsstring) :=
  mapM (fun v => match v with Json.Str s => Some s | _ => None end) vs.

(** The assistant's text that an exchange ends with. *)
Definition reply (r : post_result) : option jsstring :=
  match r with
  | post_rejected e =>
      Some (str "Error: " ++ str "Failed to stream chat completion: " ++ e)
  | post_response events =>
      fs ← texts (contents events); Some (concat fs)
  end.

(** The two turns of an exchange. *)
Definition turns (x : jsstring * post_result) : option (list OllamaMessage) :=
  text ← reply x.2;
  Some [userTurn x.1; {| role := assistant; content := text |}].

End OllamaChatProvider.

(** ** What a call that can fail gives back *)

Inductive result (A : Type) :=
| ok (a : A)
| throws (message : jsstring).

Arguments ok {A} a.
Arguments throws {A} message.

(** ** ollamaApi.ts, the requests without a stream *)

(** The request of a completion; of its [options], [temperature] is a
    constant of the caller and is left out. *)
Record OllamaGenerateRequest := {
  g_model : jsstring;
  g_prompt : jsstring;
  g_suffix : jsstring;
  g_num_predict : Z;
  g_stop : list jsstring
}.

Module OllamaRequests.

(** [generateCompletion(request)], given how [axios.post] settles: the
    [response] field of the answer, or an [Error] that wraps the failure. *)
Definition generateCompletion (post : result jsstring) : result jsstring :=
  match post with
  | ok response => ok response
  | throws e => throws (str "Failed to generate completion: " ++ e)
  end.

End OllamaRequests.

(** ** completionProvider.ts, the provider *)

Module InlineCompletion.

Import OllamaCompletionProvider.

(** What [provideInlineCompletionItems] ends with: an exception, [null],
    or one item, its text and the position that is both ends of its
    range. *)
Inductive outcome :=
| thrown
| null
| item (insertText : jsstring) (at_ : Position).

(** The request that [getCompletion] builds; [None] when reading the
    document throws. *)
Definition completionPayload (defaultModel : jsstring) (maxTokens : Z)
    (document : TextDocument) (position : Position)
  : option OllamaGenerateRequest :=
  contextLines ← getContextLines document position;
  let prompt := buildPrompt document contextLines in
  suffix ← getSuffix document position;
  Some {| g_model := defaultModel; g_prompt := prompt; g_suffix := suffix;
          g_num_predict := maxTokens;
          g_stop := [[Js.LF; Js.LF]; str "```"; str "###"] |}.

(** [getCompletion(document, position, token)]. [api] is the service
    behind [generateCompletion] and [cancelled] the value of
    [token.isCancellationRequested] when the [catch] reads it. An
    exception of [processCompletion] is raised inside the [try] and meets
    the same [catch]. *)
Definition getCompletion (defaultModel : jsstring) (maxTokens : Z)
    (api : OllamaGenerateRequest -> result jsstring) (cancelled : bool)
    (document : TextDocument) (position : Position)
  : result (option jsstring) :=
  match completionPayload defaultModel maxTokens document position with
  | None => throws (str "Illegal value for `line`")
  | Some request =>
      match OllamaRequests.generateCompletion (api request) with
      | ok completion =>
          match processCompletion completion document position with
          | Some processed => ok (Some processed)
          | None =>
              if cancelled then ok None
              else throws (str "Illegal value for `line`")
          end
      | throws e => if cancelled then ok None else throws e
      end
  end.

(** [provideInlineCompletionItems(document, position, context, token)].
    [isEnabled] is the field of the provider and [wordStart] the character
    where [document.getWordRangeAtPosition(position)] starts, when the
    editor finds a word there. *)
Definition provideInlineCompletionItems (isEnabled : bool)
    (wordStart : option Z) (defaultModel : jsstring) (maxTokens : Z)
    (api : OllamaGenerateRequest -> result jsstring) (cancelled : bool)
    (document : TextDocument) (position : Position) : outcome :=
  if negb isEnabled then null
  else if match wordStart with
          | Some start => start <? character position
          | None => false
          end
  then null
  else
    match lineAt document (line position) with
    | None => thrown
    | Some text =>
        let linePrefix := Js.substring text 0 (character position) in
        if Z.of_nat (length (Js.trim linePrefix)) =? 0 then null
        else
          match getCompletion defaultModel maxTokens api cancelled
                  document position with
          | throws _ => null
          | ok None => null
          | ok (Some []) => null
          | ok (Some completion) =>
              if Z.of_nat (length (Js.trim completion)) =? 0 then null
              else item completion position
          end
    end.

End InlineCompletion.

(** ** chatProvider.ts, the events of a session and the view *)

Module ChatSession.

Import OllamaApi OllamaChatProvider.

(** [resolveWebviewView(..)], as far as the fields go: the view is set. *)
Definition resolveWebviewView (p : t) : t :=
  {| chatHistory := chatHistory p; maxHistory := maxHistory p; view := true;
     posted := posted p |}.

(** One thing that happens to the provider: a send begins, the stream of
    some exchange delivers (its callback runs with what it had
    accumulated, or the [await] of the exchange goes on, resolved or
    rejected), the chat is cleared, or the view is resolved. Exchanges may
    overlap. A change of the setting [ollama.chat.maxHistory] is no step:
    the states are those of a session under one value of it. *)
Inductive step (p : t) : t -> Prop :=
| step_send defaultModel userMessage :
    step p (send defaultModel userMessage p).1
| step_chunk chunk assistantMessage :
    step p (chunk_callback chunk (assistantMessage, p)).2
| step_resolved assistantMessage :
    step p (resolved (assistantMessage, p)).2
| step_rejected message assistantMessage :
    step p (rejected message (assistantMessage, p)).2
| step_clear :
    step p (clearChat p)
| step_view :
    step p (resolveWebviewView p).

(** The states a provider can be in. *)
Definition reachable (maxHistory : Z) (view : bool) (p : t) : Prop :=
  rtc step (init maxHistory view) p.

(** A turn as [send] stores the user's text: not empty, and with no white
    space at either end. *)
Definition trimmed (s : jsstring) : Prop := s <> [] /\ Js.trim s = s.

(** What every turn of a history is like: never a [system] turn, and a
    user's turn holds a trimmed text. *)
Definition turn_ok (m : OllamaMessage) : Prop :=
  role m <> system /\ (role m = user -> trimmed (content m)).

Definition ends_with_assistant (h : list OllamaMessage) : Prop :=
  h = [] \/ exists h' m, h = h' ++ [m] /\ role m = assistant.

End ChatSession.

(** The script of the chat view: what is shown inside the element
    [messages]. *)
Module ChatView.

Import OllamaChatProvider.

Inductive node :=
| empty_state
| message_div (className : jsstring) (textContent : jsstring)
| typing_indicator.

Definition is_typing_indicator (n : node) : bool :=
  match n with typing_indicator => true | _ => false end.

Definition className_of (r : Role) : jsstring :=
  str "message "
  ++ match r with
     | user => str "user-message"
     | _ => str "assistant-message"
     end.

(** [updateMessagesView()] *)
Definition updateMessagesView (messages : list OllamaMessage) : list node :=
  match messages with
  | [] => [empty_state]
  | _ => map (fun msg => message_div (className_of (role msg)) (content msg))
           messages
  end.

(** [showTypingIndicator()] of the script *)
Definition showTypingIndicator (container : list node) : list node :=
  if existsb is_typing_indicator container then container
  else container ++ [typing_indicator].

Fixpoint remove_first_indicator (container : list node) : list node :=
  match container with
  | [] => []
  | typing_indicator :: rest => rest
  | n :: rest => n :: remove_first_indicator rest
  end.

(** [hideTypingIndicator()] of the script *)
Definition hideTypingIndicator (container : list node) : list node :=
  remove_first_indicator container.

(** The listener of ['message'] events. *)
Definition receive (container : list node) (m : WebviewMessage) : list node :=
  match m with
  | updateMessages messages => updateMessagesView messages
  | showTyping => showTypingIndicator container
  | hideTyping => hideTypingIndicator container
  end.

(** How many typing indicators a container holds. *)
Definition indicators (container : list node) : nat :=
  length (List.filter is_typing_indicator container).

(** The view as the HTML gives it, and after the messages posted to it,
    each of them delivered, in the order of posting. *)
Definition initial : list node := [empty_state].

Definition shown (posted : list WebviewMessage) : list node :=
  fold_left receive posted initial.

End ChatView.

(** ** commands.ts *)

Module OllamaCommandManager.

(** The three places that say whether completions are on: the field of the
    command manager, the field of the completion provider and the setting
    [ollama.completions.enabled]. *)
Record flags := {
  completionsEnabled : bool;
  isEnabled : bool;
  setting : bool
}.

(** The setting changes: the listener of the completion provider reads it
    again; the command manager has no listener. *)
Definition onDidChangeConfiguration (value : bool) (f : flags) : flags :=
  {| completionsEnabled := completionsEnabled f;
     isEnabled := value;
     setting := value |}.

(** [toggleCompletions()]; [updated] tells whether [config.update]
    succeeds, which fires the change of the setting. *)
Definition toggleCompletions (updated : bool) (f : flags) : flags :=
  let enabled := negb (completionsEnabled f) in
  let f := {| completionsEnabled := enabled; isEnabled := enabled;
              setting := setting f |} in
  if updated then onDidChangeConfiguration enabled f else f.

End OllamaCommandManager.

(** ** modelManager.ts *)

(** [s.includes(needle)] *)
Fixpoint starts_with (needle s : jsstring) : bool :=
  match needle, s with
  | [], _ => true
  | c :: needle', x :: s' => (c =? x)%N && starts_with needle' s'
  | _ :: _, [] => false
  end.

Fixpoint includes (s needle : jsstring) : bool :=
  starts_with needle s
  || match s with
     | [] => false
     | _ :: s' => includes s' needle
     end.

Module OllamaConfigurationProvider.

Definition preferredModels : list jsstring :=
  [str "llama3.2"; str "llama3.1"; str "llama3"; str "codellama";
   str "mistral"].

(** The [for] loop over the preferred names: the first of them that some
    model's name includes decides, with the first such model; a model is
    given by its name. *)
Fixpoint pick (preferred : list jsstring) (models : list jsstring)
    (defaultModel : jsstring) : jsstring :=
  match preferred with
  | [] => defaultModel
  | p :: rest =>
      match find (fun name => includes name p) models with
      | Some found => found
      | None => pick rest models defaultModel
      end
  end.

(** [initializeConfiguration()]: the value that it gives to
    [config.update] for the setting [ollama.model], if it comes to that.
    [model] is the setting as it is read ([None] for [undefined]) and
    [getModels] how the request for the models settles. *)
Definition initializeConfiguration (model : option jsstring)
    (getModels : result (list jsstring)) : option jsstring :=
  match model with
  | Some (_ :: _) => None
  | _ =>
      match getModels with
      | throws _ => None
      | ok [] => None
      | ok (first :: others) =>
          Some (pick preferredModels (first :: others) first)
      end
  end.

End OllamaConfigurationProvider.

(** * Properties *)

(** ** The last elements of a list *)

Section KeepLast.

Context {A : Type}.
Implicit Types (l : list A) (n : nat).

Lemma keep_last_length n l : length (keep_last n l) = Nat.min n (length l).
Proof. unfold keep_last. rewrite length_drop. lia. Qed.

Lemma keep_last_snoc n l x :
  keep_last (S n) (l ++ [x]) = keep_last n l ++ [x].
Proof.
  unfold keep_last. rewrite length_app. simpl.
  rewrite drop_app_le by lia. f_equal. f_equal. lia.
Qed.

Lemma keep_last_keep_last n k l :
  (n <= k)%nat -> keep_last n (keep_last k l) = keep_last n l.
Proof.
  intros Hnk. unfold keep_last. rewrite drop_drop, length_drop.
  f_equal. lia.
Qed.

Lemma keep_last_all n l : (length l <= n)%nat -> keep_last n l = l.
Proof.
  intros Hl. unfold keep_last.
  by replace (length l - n)%nat with 0%nat by lia.
Qed.

Lemma keep_last_app n l l' :
  keep_last n (keep_last n l ++ l') = keep_last n (l ++ l').
Proof.
  unfold keep_last. rewrite !drop_app, drop_drop, !length_app, !length_drop.
  f_equal; f_equal; lia.
Qed.

End KeepLast.

(** ** The chat session *)

Section ChatFacts.

Import OllamaApi OllamaChatProvider.

Implicit Types (p : t) (h : list OllamaMessage) (m : OllamaMessage).

Lemma chatHistory_postMessage w p :
  chatHistory (postMessage w p) = chatHistory p.
Proof. unfold postMessage. by destruct (view p). Qed.

Lemma maxHistory_postMessage w p :
  maxHistory (postMessage w p) = maxHistory p.
Proof. unfold postMessage. by destruct (view p). Qed.

Lemma chatHistory_updateWebview p :
  chatHistory (updateWebview p) = chatHistory p.
Proof. apply chatHistory_postMessage. Qed.

Lemma maxHistory_updateWebview p :
  maxHistory (updateWebview p) = maxHistory p.
Proof. apply maxHistory_postMessage. Qed.

Lemma maxHistory_addMessageToHistory m p :
  maxHistory (addMessageToHistory m p) = maxHistory p.
Proof. unfold addMessageToHistory. by case_match. Qed.

Lemma maxHistory_set_last_content s p :
  maxHistory (set_last_content s p) = maxHistory p.
Proof. unfold set_last_content. by case_match. Qed.

(** With a bound of at least one pair, appending keeps the last
    [2 * maxHistory] turns. *)
Lemma addMessageToHistory_keep_last m p :
  1 <= maxHistory p ->
  chatHistory (addMessageToHistory m p)
  = keep_last (Z.to_nat (2 * maxHistory p)) (chatHistory p ++ [m]).
Proof.
  intros Hb. unfold addMessageToHistory, keep_last, Js.slice.
  set (h := chatHistory p ++ [m]).
  destruct (Z.gtb_spec (Z.of_nat (length h)) (maxHistory p * 2)) as [Hgt|Hle];
    simpl.
  - destruct (Z.ltb_spec (- maxHistory p * 2) 0); [|lia].
    f_equal. lia.
  - replace (length h - Z.to_nat (2 * maxHistory p))%nat with 0%nat by lia.
    done.
Qed.

(** With the bound [0] the start of the slice is [-0]: nothing is
    dropped. *)
Lemma addMessageToHistory_zero m p :
  maxHistory p = 0 ->
  chatHistory (addMessageToHistory m p) = chatHistory p ++ [m].
Proof.
  intros Hb. unfold addMessageToHistory, Js.slice. rewrite Hb. simpl.
  case_match; simpl; [|done].
  by rewrite Z.min_l by lia.
Qed.

(** For a bound that is not negative the appended turn is the last one. *)
Lemma addMessageToHistory_last m p :
  0 <= maxHistory p ->
  exists h, chatHistory (addMessageToHistory m p) = h ++ [m].
Proof.
  intros Hb. destruct (decide (maxHistory p = 0)) as [H0|H0].
  - rewrite addMessageToHistory_zero; eauto.
  - rewrite addMessageToHistory_keep_last by lia. unfold keep_last.
    rewrite length_app. simpl.
    exists (drop (length (chatHistory p ++ [m])
                   - Z.to_nat (2 * maxHistory p)) (chatHistory p)).
    rewrite length_app. simpl. rewrite drop_app_le; [done|lia].
Qed.

Lemma set_last_content_snoc s p h m :
  chatHistory p = h ++ [m] ->
  chatHistory (set_last_content s p)
  = h ++ [{| role := role m; content := s |}].
Proof.
  intros Hh. unfold set_last_content. rewrite Hh, length_app. simpl.
  destruct (Z.ltb_spec 0 (Z.of_nat (length h + 1))); [|lia]. simpl.
  replace (length h + 1 - 1)%nat with (length h + 0)%nat by lia.
  by rewrite alter_app_r.
Qed.

Lemma set_last_content_nil s p :
  chatHistory p = [] -> set_last_content s p = p.
Proof. intros Hh. unfold set_last_content. by rewrite Hh. Qed.

Lemma chunk_callback_snoc f acc p h m :
  chatHistory p = h ++ [m] ->
  exists p', chunk_callback f (acc, p) = (acc ++ f, p')
             /\ chatHistory p' = h ++ [{| role := role m; content := acc ++ f |}]
             /\ maxHistory p' = maxHistory p.
Proof.
  intros Hh. eexists. split; [reflexivity|].
  rewrite chatHistory_updateWebview, maxHistory_updateWebview,
    maxHistory_set_last_content.
  split; [|done]. by apply set_last_content_snoc.
Qed.

Lemma resolved_snoc acc p h m :
  chatHistory p = h ++ [m] ->
  exists p', resolved (acc, p) = (acc, p')
             /\ chatHistory p' = h ++ [{| role := role m; content := acc |}]
             /\ maxHistory p' = maxHistory p.
Proof.
  intros Hh. eexists. split; [reflexivity|].
  rewrite chatHistory_updateWebview, maxHistory_updateWebview.
  unfold hideTypingIndicator.
  rewrite chatHistory_postMessage, maxHistory_postMessage,
    maxHistory_set_last_content.
  split; [|done]. by apply set_last_content_snoc.
Qed.

(** Fragments delivered to a history that ends in some turn: the
    turn's content becomes what was accumulated, followed by the
    fragments in their order. *)
Lemma react_fragments fs : forall acc p h m,
  chatHistory p = h ++ [m] ->
  exists p', react_all (fragments fs) (acc, p) = Some (acc ++ concat fs, p')
             /\ chatHistory p'
                = h ++ [{| role := role m;
                           content := if fs is [] then content m
                                      else acc ++ concat fs |}]
             /\ maxHistory p' = maxHistory p.
Proof.
  induction fs as [|f fs IH]; intros acc p h m Hh.
  - exists p. simpl. rewrite app_nil_r. by destruct m.
  - change (react_all (fragments (f :: fs)) (acc, p))
      with (react_all (fragments fs) (chunk_callback f (acc, p))).
    destruct (chunk_callback_snoc f acc p h m Hh) as (p1 & -> & H1 & Hb1).
    destruct (IH (acc ++ f) p1 h _ H1) as (p2 & E2 & H2 & Hb2).
    rewrite <- app_assoc in E2, H2.
    exists p2. split; [exact E2|]. split; [|congruence].
    rewrite H2. simpl. by destruct fs; rewrite ?app_nil_r.
Qed.

End ChatFacts.

Section ChatExchange.

Import OllamaApi OllamaChatProvider.

Implicit Types (p : t) (h : list OllamaMessage) (m : OllamaMessage).

(** The first part of [handleSendMessage] for a text that is not blank. *)
Lemma send_nonblank dm text p :
  Js.trim text <> [] ->
  let p1 := addMessageToHistory (userTurn text) p in
  send dm text p
  = (addMessageToHistory placeholder
       (showTypingIndicator (updateWebview p1)),
     Some {| model := dm; messages := chatHistory p1 |}).
Proof.
  intros Hne. unfold send, userTurn.
  destruct (Js.trim text) as [|c r] eqn:E; [done|]. simpl.
  unfold showTypingIndicator.
  by rewrite chatHistory_postMessage, chatHistory_updateWebview.
Qed.

Lemma send_blank dm text p : Js.trim text = [] -> send dm text p = (p, None).
Proof. intros E. unfold send. by rewrite E. Qed.

Lemma maxHistory_send dm text p :
  maxHistory (send dm text p).1 = maxHistory p.
Proof.
  destruct (decide (Js.trim text = [])) as [E|E].
  - by rewrite send_blank.
  - rewrite send_nonblank by done. simpl.
    rewrite maxHistory_addMessageToHistory. unfold showTypingIndicator.
    by rewrite maxHistory_postMessage, maxHistory_updateWebview,
      maxHistory_addMessageToHistory.
Qed.

(** The history when the request goes out, for a bound that is not
    negative: the placeholder is its last turn. *)
Lemma send_history_last dm text p :
  0 <= maxHistory p -> Js.trim text <> [] ->
  exists h, chatHistory (send dm text p).1 = h ++ [placeholder].
Proof.
  intros Hb Hne. rewrite send_nonblank by done. simpl.
  apply addMessageToHistory_last. unfold showTypingIndicator.
  by rewrite maxHistory_postMessage, maxHistory_updateWebview,
    maxHistory_addMessageToHistory.
Qed.

(** The history when the request goes out, for a bound of at least one
    pair: the last [2 * maxHistory] turns of the old history followed by
    the user's turn and the placeholder. *)
Lemma send_history dm text p :
  1 <= maxHistory p -> Js.trim text <> [] ->
  chatHistory (send dm text p).1
  = keep_last (Z.to_nat (2 * maxHistory p))
      (chatHistory p ++ [userTurn text; placeholder]).
Proof.
  intros Hb Hne. rewrite send_nonblank by done. simpl.
  rewrite addMessageToHistory_keep_last; unfold showTypingIndicator;
    rewrite ?maxHistory_postMessage, ?maxHistory_updateWebview,
      ?maxHistory_addMessageToHistory; [|done].
  rewrite chatHistory_postMessage, chatHistory_updateWebview.
  rewrite addMessageToHistory_keep_last by done.
  destruct (Z.to_nat (2 * maxHistory p)) as [|n] eqn:En; [lia|].
  rewrite keep_last_snoc, keep_last_keep_last by lia.
  rewrite <- keep_last_snoc. by rewrite <- app_assoc.
Qed.

End ChatExchange.

Section ChatProperties.

Import OllamaApi OllamaChatProvider.

Implicit Types (p : t) (h : list OllamaMessage) (m : OllamaMessage).

Lemma emit_contents events : emit events = map onChunk (contents events).
Proof.
  induction events as [|[chunk| |e] rest IH]; simpl; try done.
  by rewrite map_app, IH.
Qed.

Lemma texts_fragments vs fs :
  texts vs = Some fs -> map onChunk vs = fragments fs.
Proof.
  unfold texts, fragments. revert fs.
  induction vs as [|v vs IH]; intros fs H; simplify_option_eq; [done|].
  destruct v; simplify_eq. simpl. f_equal. by apply IH.
Qed.

(** Nothing that a stream delivers changes an empty history. *)
Lemma react_all_empty late : forall acc p,
  chatHistory p = [] ->
  Forall late_delivery late ->
  exists st, react_all late (acc, p) = Some st /\ chatHistory st.2 = [].
Proof.
  induction late as [|a late IH]; intros acc p Hp Hl.
  - by exists (acc, p).
  - apply Forall_cons in Hl as [[->|[f ->]] Hl].
    + change (react_all (resolve :: late) (acc, p))
        with (react_all late (resolved (acc, p))).
      unfold resolved. rewrite set_last_content_nil by done.
      apply IH; [|done].
      unfold hideTypingIndicator.
      by rewrite chatHistory_updateWebview, chatHistory_postMessage.
    + change (react_all (onChunk (Json.Str f) :: late) (acc, p))
        with (react_all late (chunk_callback f (acc, p))).
      unfold chunk_callback. rewrite set_last_content_nil by done.
      apply IH; [|done]. by rewrite chatHistory_updateWebview.
Qed.

(** C7: a send, then whatever its stream delivers early (fragments, the
    continuation of the resolved promise), then [clearChat]. Whatever the
    stream still delivers afterwards, in any number and with any texts,
    the history stays empty: no late fragment creates or changes a turn. *)
Theorem clear_then_late_fragments dm text p early st0 late :
  react_all early ([], (send dm text p).1) = Some st0 ->
  Forall late_delivery late ->
  exists st,
    react_all late (st0.1, clearChat st0.2) = Some st
    /\ chatHistory st.2 = [].
Proof.
  intros _ Hl. apply react_all_empty; [|done].
  unfold clearChat. by rewrite chatHistory_updateWebview.
Qed.

Lemma clear_then_late_fragments_witness :
  exists st,
    react_all (fragments [str " there"; str "!"])
      (str "Hi",
       clearChat
         (chunk_callback (str "Hi")
            (resolved ([], (send (str "m") (str "Hello") (init 20 true)).1))).2)
    = Some st
    /\ chatHistory st.2 = [].
Proof.
  apply (clear_then_late_fragments (str "m") (str "Hello") (init 20 true)
           [resolve; onChunk (Json.Str (str "Hi"))]
           (chunk_callback (str "Hi")
              (resolved ([], (send (str "m") (str "Hello") (init 20 true)).1)))).
  - reflexivity.
  - apply Forall_cons_2; [right; by eexists|].
    apply Forall_cons_2; [right; by eexists|].
    apply Forall_nil_2.
Defined.

(** A stream that was opened, seen from the provider: the promise is
    resolved, then the fragments arrive. *)
Lemma react_stream fs p h :
  chatHistory p = h ++ [placeholder] ->
  exists p',
    react_all (resolve :: fragments fs) ([], p) = Some (concat fs, p')
    /\ chatHistory p' = h ++ [{| role := assistant; content := concat fs |}]
    /\ maxHistory p' = maxHistory p.
Proof.
  intros Hh.
  change (react_all (resolve :: fragments fs) ([], p))
    with (react_all (fragments fs) (resolved ([], p))).
  destruct (resolved_snoc [] _ _ _ Hh) as (p1 & -> & H1 & Hb1).
  destruct (react_fragments fs [] p1 h _ H1) as (p2 & E2 & H2 & Hb2).
  exists p2. split; [exact E2|]. split; [|congruence].
  rewrite H2. simpl. by destruct fs.
Qed.

(** C8: the fragments of one exchange, delivered in order after the
    promise of the stream was resolved, leave the in-progress assistant
    turn with the concatenation of their texts, in the order of arrival;
    the turns before it are as they were when the request went out. *)
Theorem fragments_are_concatenated dm text p fs :
  0 <= maxHistory p -> Js.trim text <> [] ->
  exists h p',
    chatHistory (send dm text p).1 = h ++ [placeholder]
    /\ react_all (resolve :: fragments fs) ([], (send dm text p).1)
       = Some (concat fs, p')
    /\ chatHistory p'
       = h ++ [{| role := assistant; content := concat fs |}].
Proof.
  intros Hb Hne.
  destruct (send_history_last dm text p Hb Hne) as [h Hh].
  destruct (react_stream fs _ h Hh) as (p' & E & H & _).
  by exists h, p'.
Qed.

Lemma fragments_are_concatenated_witness :
  exists h p',
    chatHistory (send (str "m") (str "Hello") (init 20 true)).1
    = h ++ [placeholder]
    /\ react_all (resolve :: fragments [str "Hi"; str " there"; str "!"])
         ([], (send (str "m") (str "Hello") (init 20 true)).1)
       = Some (concat [str "Hi"; str " there"; str "!"], p')
    /\ chatHistory p'
       = h ++ [{| role := assistant;
                  content := concat [str "Hi"; str " there"; str "!"] |}].
Proof.
  apply fragments_are_concatenated; [simpl; lia | vm_compute; discriminate].
Defined.

(** The scenario of the specification: "Hello", answered by the
    fragments "Hi", " there" and "!". *)
Example hello_scenario :
  chatHistory <$>
    handleSendMessage (str "m") (str "Hello")
      (post_response
         [data (wire "{'message':{'role':'assistant','content':'Hi'},'done':false}" ++ [Js.LF]);
          data (wire "{'message':{'role':'assistant','content':' there'},'done':false}" ++ [Js.LF]);
          data (wire "{'message':{'role':'assistant','content':'!'},'done':false}" ++ [Js.LF]
                ++ wire "{'message':{'role':'assistant','content':''},'done':true}" ++ [Js.LF]);
          end_])
      (init 20 true)
  = Some [{| role := user; content := str "Hello" |};
          {| role := assistant; content := str "Hi there!" |}].
Proof. vm_compute. reflexivity. Qed.

Lemma pop_assistant_snoc h m :
  role m = assistant -> pop_assistant (h ++ [m]) = h.
Proof.
  intros Hr. unfold pop_assistant. rewrite last_snoc.
  destruct m as [[] c]; simplify_eq/=.
  rewrite length_app. simpl.
  replace (length h + 1 - 1)%nat with (length h) by lia.
  by rewrite take_app_length.
Qed.

(** One exchange under a bound of at least one pair: the history
    afterwards is the last [2 * maxHistory] turns of the history before
    followed by the two turns of the exchange. *)
Lemma exchange_history dm text r p ts :
  1 <= maxHistory p -> Js.trim text <> [] ->
  turns (text, r) = Some ts ->
  exists p',
    handleSendMessage dm text r p = Some p'
    /\ chatHistory p'
       = keep_last (Z.to_nat (2 * maxHistory p)) (chatHistory p ++ ts)
    /\ maxHistory p' = maxHistory p.
Proof.
  intros Hb Hne Ht. unfold handleSendMessage.
  pose proof (send_history dm text p Hb Hne) as Hs.
  pose proof (maxHistory_send dm text p) as Hm.
  rewrite send_nonblank in Hs, Hm |- * by done.
  cbn [fst snd] in Hs, Hm. cbv zeta.
  set (p1 := addMessageToHistory placeholder _) in *.
  destruct (Z.to_nat (2 * maxHistory p)) as [|n] eqn:En; [lia|].
  change [userTurn text; placeholder]
    with ([userTurn text] ++ [placeholder]) in Hs.
  rewrite app_assoc, keep_last_snoc in Hs.
  unfold turns in Ht. cbn [fst snd] in Ht.
  destruct r as [e|events].
  - (* the request fails *)
    injection Ht as <-.
    eexists. split; [reflexivity|]. unfold rejected. cbn [snd].
    rewrite chatHistory_updateWebview, maxHistory_updateWebview.
    unfold hideTypingIndicator.
    rewrite chatHistory_postMessage, maxHistory_postMessage.
    rewrite maxHistory_addMessageToHistory. split; [|done].
    rewrite addMessageToHistory_keep_last by (cbn; lia).
    cbn [chatHistory maxHistory set_history].
    rewrite Hs, pop_assistant_snoc by done.
    rewrite Hm, En, keep_last_snoc, keep_last_keep_last by lia.
    rewrite <- keep_last_snoc. rewrite <- (app_assoc (chatHistory p)).
    reflexivity.
  - (* the stream is opened *)
    cbn [reply] in Ht.
    destruct (texts (contents events)) as [fs|] eqn:Hfs; [|done].
    injection Ht as <-.
    cbn [streamChatCompletion]. rewrite emit_contents.
    erewrite texts_fragments by done.
    destruct (react_stream fs p1 _ Hs) as (p2 & -> & H2 & Hb2).
    exists p2. split; [done|]. split; [|congruence].
    rewrite H2. rewrite <- keep_last_snoc. by rewrite <- app_assoc.
Qed.

(** Exchanges one after the other under a bound of at least one pair:
    the history is the last [2 * maxHistory] turns of all turns, the older
    ones first. *)
Lemma exchanges_history dm xs : forall p tss,
  1 <= maxHistory p ->
  Z.of_nat (length (chatHistory p)) <= 2 * maxHistory p ->
  Forall (fun x => Js.trim x.1 <> []) xs ->
  mapM turns xs = Some tss ->
  exists p',
    handleSendMessages dm xs p = Some p'
    /\ chatHistory p'
       = keep_last (Z.to_nat (2 * maxHistory p))
           (chatHistory p ++ concat tss)
    /\ maxHistory p' = maxHistory p.
Proof.
  induction xs as [|[text r] xs IH]; intros p tss Hb Hlen Hne Ht.
  - injection Ht as <-. exists p. split; [done|]. split; [|done].
    simpl. rewrite app_nil_r, keep_last_all; [done|lia].
  - apply Forall_cons in Hne as [Hne1 Hne].
    cbn [mapM] in Ht.
    destruct (turns (text, r)) as [ts|] eqn:Hts; [|done].
    destruct (mapM turns xs) as [tss'|] eqn:Htss; [|done].
    injection Ht as <-.
    destruct (exchange_history dm text r p ts Hb Hne1 Hts)
      as (p1 & E1 & H1 & Hb1).
    destruct (IH p1 tss') as (p2 & E2 & H2 & Hb2); [lia| |done|done|].
    + rewrite H1, keep_last_length, Hb1. lia.
    + exists p2. cbn [handleSendMessages]. rewrite E1. cbn.
      split; [exact E2|]. split; [|congruence].
      rewrite H2, H1, Hb1, keep_last_app. simpl. by rewrite app_assoc.
Qed.

(** Without a bound ([maxHistory = 0]) an exchange only appends. *)
Lemma exchange_history_zero dm text r p ts :
  maxHistory p = 0 -> Js.trim text <> [] ->
  turns (text, r) = Some ts ->
  exists p',
    handleSendMessage dm text r p = Some p'
    /\ chatHistory p' = chatHistory p ++ ts
    /\ maxHistory p' = 0.
Proof.
  intros Hb Hne Ht. unfold handleSendMessage.
  pose proof (maxHistory_send dm text p) as Hm.
  rewrite send_nonblank in Hm |- * by done.
  cbn [fst snd] in Hm. cbv zeta.
  set (p1 := addMessageToHistory placeholder _) in *.
  assert (Hs : chatHistory p1 = (chatHistory p ++ [userTurn text])
                                 ++ [placeholder]).
  { unfold p1. rewrite addMessageToHistory_zero.
    - unfold showTypingIndicator.
      by rewrite chatHistory_postMessage, chatHistory_updateWebview,
        addMessageToHistory_zero.
    - unfold showTypingIndicator.
      by rewrite maxHistory_postMessage, maxHistory_updateWebview,
        maxHistory_addMessageToHistory. }
  unfold turns in Ht. cbn [fst snd] in Ht.
  destruct r as [e|events].
  - injection Ht as <-.
    eexists. split; [reflexivity|]. unfold rejected. cbn [snd].
    rewrite chatHistory_updateWebview, maxHistory_updateWebview.
    unfold hideTypingIndicator.
    rewrite chatHistory_postMessage, maxHistory_postMessage.
    rewrite maxHistory_addMessageToHistory. split; [|cbn; congruence].
    rewrite addMessageToHistory_zero by (cbn; congruence).
    cbn [chatHistory maxHistory set_history].
    rewrite Hs, pop_assistant_snoc by done.
    rewrite <- (app_assoc (chatHistory p)). reflexivity.
  - cbn [reply] in Ht.
    destruct (texts (contents events)) as [fs|] eqn:Hfs; [|done].
    injection Ht as <-.
    cbn [streamChatCompletion]. rewrite emit_contents.
    erewrite texts_fragments by done.
    destruct (react_stream fs p1 _ Hs) as (p2 & -> & H2 & Hb2).
    exists p2. split; [done|]. split; [|congruence].
    rewrite H2. by rewrite <- app_assoc.
Qed.

(** C4, on the code: the stream of the exchange delivers the fragment
    "Par" and then fails. The promise was resolved when the stream was
    opened and ['error'] has no listener, so the [catch] block is not
    run: the partial turn stays and no error turn is appended. *)
Theorem failure_after_fragment_keeps_partial_turn :
  chatHistory <$>
    handleSendMessage (str "m") (str "Tell me")
      (post_response
         [data (wire "{'message':{'role':'assistant','content':'Par'},'done':false}" ++ [Js.LF]);
          error (str "socket hang up")])
      (init 20 true)
  = Some [{| role := user; content := str "Tell me" |};
          {| role := assistant; content := str "Par" |}].
Proof. vm_compute. reflexivity. Qed.

(** X15: when the request itself fails, before any fragment, the provider
    does what the specification asks: the placeholder is removed and an
    error turn takes its place after the user's turn. *)
Lemma connection_failure_rolls_back dm text e p :
  1 <= maxHistory p -> Js.trim text <> [] ->
  exists p',
    handleSendMessage dm text (post_rejected e) p = Some p'
    /\ chatHistory p'
       = keep_last (Z.to_nat (2 * maxHistory p))
           (chatHistory p
            ++ [userTurn text;
                {| role := assistant;
                   content := str "Error: "
                              ++ str "Failed to stream chat completion: "
                              ++ e |}]).
Proof.
  intros Hb Hne.
  destruct (exchange_history dm text (post_rejected e) p _ Hb Hne eq_refl)
    as (p' & E & H & _).
  by exists p'.
Qed.

(** C5, on the code: with the bound [0] the start of the slice in
    [addMessageToHistory] is [-0], the slice is the whole array and no
    turn is ever evicted; after one completed exchange the history holds
    two turns, where [min(1, 0) * 2] is [0]. *)
Theorem zero_bound_keeps_every_turn :
  exists p,
    handleSendMessages (str "m")
      [(str "Hello",
        post_response
          [data (wire "{'message':{'role':'assistant','content':'Hi'},'done':true}" ++ [Js.LF]);
           end_])]
      (init 0 true) = Some p
    /\ chatHistory p = [{| role := user; content := str "Hello" |};
                        {| role := assistant; content := str "Hi" |}]
    /\ Z.of_nat (length (chatHistory p)) <> Z.min 1 0 * 2.
Proof.
  eexists. split; [vm_compute; reflexivity|]. split; [reflexivity|].
  vm_compute. discriminate.
Qed.

Lemma turns_length x ts : turns x = Some ts -> length ts = 2%nat.
Proof.
  unfold turns. destruct (reply x.2); [|done]. by intros [= <-].
Qed.

Lemma mapM_turns_pairs xs : forall tss,
  mapM turns xs = Some tss ->
  Forall (fun ts => length ts = 2%nat) tss /\ length tss = length xs.
Proof.
  induction xs as [|x xs IH]; intros tss H; cbn [mapM] in H.
  - injection H as <-. by split.
  - destruct (turns x) as [ts|] eqn:Hts; [|done].
    destruct (mapM turns xs) as [tss'|] eqn:Htss; [|done].
    injection H as <-. destruct (IH _ eq_refl) as [HF HL].
    split; [|simpl; congruence].
    constructor; [by eapply turns_length|done].
Qed.

Lemma drop_concat_pairs {A} (tss : list (list A)) : forall k,
  Forall (fun ts => length ts = 2%nat) tss ->
  drop (2 * k) (concat tss) = concat (drop k tss).
Proof.
  induction tss as [|ts tss IH]; intros k HF.
  - simpl. by rewrite !drop_nil.
  - apply Forall_cons in HF as [Hts HF]. destruct k as [|k]; [done|].
    simpl concat. rewrite drop_app, Hts.
    rewrite (drop_ge ts) by lia.
    replace (2 * S k - 2)%nat with (2 * k)%nat by lia.
    by rewrite IH.
Qed.

Lemma concat_pairs_length {A} (tss : list (list A)) :
  Forall (fun ts => length ts = 2%nat) tss ->
  length (concat tss) = (2 * length tss)%nat.
Proof.
  induction 1 as [|ts tss Hts _ IH]; [done|].
  simpl. rewrite length_app. lia.
Qed.

(** X16: for every bound of at least one pair the claim of the specification
    holds: after [k] exchanges that start from the empty history, the
    history is the turns of the last [min k b] exchanges, in order. *)
Lemma history_after_exchanges dm xs tss b v :
  1 <= b ->
  Forall (fun x => Js.trim x.1 <> []) xs ->
  mapM turns xs = Some tss ->
  exists p',
    handleSendMessages dm xs (init b v) = Some p'
    /\ chatHistory p' = concat (keep_last (Z.to_nat b) tss)
    /\ length (chatHistory p') = (Nat.min (length xs) (Z.to_nat b) * 2)%nat.
Proof.
  intros Hb Hne Ht.
  destruct (exchanges_history dm xs (init b v) tss) as (p' & E & H & _);
    try done; [simpl; lia|].
  destruct (mapM_turns_pairs xs tss Ht) as [HF HL].
  assert (Hh : chatHistory p' = concat (keep_last (Z.to_nat b) tss)).
  { rewrite H. cbn [chatHistory maxHistory init app].
    unfold keep_last. rewrite concat_pairs_length by done.
    rewrite <- drop_concat_pairs by done. f_equal. lia. }
  exists p'. split; [done|]. split; [done|].
  rewrite Hh, concat_pairs_length.
  - rewrite keep_last_length. lia.
  - unfold keep_last. by apply Forall_drop.
Qed.

Lemma set_last_content_same s p :
  same_but_last_content (chatHistory p) (chatHistory (set_last_content s p)).
Proof.
  destruct (chatHistory p) as [|m h _] eqn:Hh using rev_ind.
  - by rewrite set_last_content_nil, Hh.
  - rewrite (set_last_content_snoc s p h m Hh). split.
    + by rewrite !map_app.
    + rewrite length_app. simpl.
      replace (length h + 1 - 1)%nat with (length h) by lia.
      by rewrite !take_app_length.
Qed.

(** C9, as stated, fails: under a bound of one pair, the user's turn of
    a completed exchange is in the history, and it is gone as soon as the
    next send has begun, before anything of that exchange has arrived. *)
Lemma turn_evicted_in_flight :
  exists p,
    handleSendMessage (str "m") (str "one")
      (post_response
         [data (wire "{'message':{'role':'assistant','content':'uno'},'done':true}" ++ [Js.LF]);
          end_])
      (init 1 true) = Some p
    /\ In {| role := user; content := str "one" |} (chatHistory p)
    /\ ~ In {| role := user; content := str "one" |}
           (chatHistory (send (str "m") (str "two") p).1).
Proof.
  eexists. split; [vm_compute; reflexivity|].
  split; [vm_compute; tauto|].
  vm_compute. intros [H|[H|[]]]; discriminate H.
Qed.

(** C9, amended: eviction is part of every append. When a send begins,
    under a bound of at least one pair, the user's turn and the
    placeholder are appended and the history that the stream meets is the
    last [2 * maxHistory] turns of the result, so older turns are evicted
    while the exchange is in flight. What follows in the exchange evicts
    nothing: each fragment and the continuation of the resolved promise
    keep every turn but the last, whose content alone they set. *)
Theorem eviction_at_every_append dm text p :
  1 <= maxHistory p -> Js.trim text <> [] ->
  chatHistory (send dm text p).1
  = keep_last (Z.to_nat (2 * maxHistory p))
      (chatHistory p ++ [userTurn text; placeholder])
  /\ (forall f acc q,
        same_but_last_content (chatHistory q)
          (chatHistory (chunk_callback f (acc, q)).2))
  /\ (forall acc q,
        same_but_last_content (chatHistory q)
          (chatHistory (resolved (acc, q)).2)).
Proof.
  intros Hb Hne. split; [by apply send_history|]. split.
  - intros f acc q. cbn. rewrite chatHistory_updateWebview.
    apply set_last_content_same.
  - intros acc q. cbn. rewrite chatHistory_updateWebview.
    unfold hideTypingIndicator. rewrite chatHistory_postMessage.
    apply set_last_content_same.
Qed.

Lemma eviction_at_every_append_witness :
  chatHistory (send (str "m") (str "two") (init 1 true)).1
  = keep_last (Z.to_nat (2 * maxHistory (init 1 true)))
      (chatHistory (init 1 true) ++ [userTurn (str "two"); placeholder])
  /\ (forall f acc q,
        same_but_last_content (chatHistory q)
          (chatHistory (chunk_callback f (acc, q)).2))
  /\ (forall acc q,
        same_but_last_content (chatHistory q)
          (chatHistory (resolved (acc, q)).2)).
Proof.
  apply eviction_at_every_append; [simpl; lia | vm_compute; discriminate].
Defined.

(** C10, as stated, fails: an exchange whose stream carries no content
    leaves an assistant turn with empty content in the history, and the
    request of the next send holds it; so does the request of a second
    send that begins while the first exchange has received nothing yet,
    with the placeholder of the first. *)
Lemma request_holds_empty_assistant_turn :
  (exists p req,
      handleSendMessage (str "m") (str "one")
        (post_response
           [data (wire "{'message':{'role':'assistant','content':''},'done':true}" ++ [Js.LF]);
            end_])
        (init 20 true) = Some p
      /\ (send (str "m") (str "two") p).2 = Some req
      /\ In {| role := assistant; content := [] |} (messages req))
  /\ (exists req,
        (send (str "m") (str "two")
           (send (str "m") (str "one") (init 20 true)).1).2 = Some req
        /\ In {| role := assistant; content := [] |} (messages req)).
Proof.
  split.
  - eexists. eexists. split; [vm_compute; reflexivity|].
    split; [vm_compute; reflexivity|].
    vm_compute. tauto.
  - eexists. split; [vm_compute; reflexivity|]. vm_compute. tauto.
Qed.

(** C10, amended: for a text that is not blank and a bound that is not
    negative, the request carries the history as it is once the user's
    turn has been appended, and its last message is that turn. The
    placeholder of this exchange is appended to the history afterwards:
    the history that the stream meets is the list of the request followed
    by the placeholder, less at most one evicted turn. *)
Theorem request_is_history_before_placeholder dm text p :
  0 <= maxHistory p -> Js.trim text <> [] ->
  exists req h k,
    (send dm text p).2 = Some req
    /\ model req = dm
    /\ messages req = chatHistory (addMessageToHistory (userTurn text) p)
    /\ messages req = h ++ [userTurn text]
    /\ (k <= 1)%nat
    /\ chatHistory (send dm text p).1
       = drop k (messages req ++ [placeholder]).
Proof.
  intros Hb Hne. rewrite send_nonblank by done. cbn [fst snd].
  destruct (addMessageToHistory_last (userTurn text) p Hb) as [h Hh].
  set (p1 := addMessageToHistory (userTurn text) p) in *.
  assert (Hm : maxHistory (showTypingIndicator (updateWebview p1))
               = maxHistory p).
  { unfold showTypingIndicator, p1.
    by rewrite maxHistory_postMessage, maxHistory_updateWebview,
      maxHistory_addMessageToHistory. }
  assert (Hc : chatHistory (showTypingIndicator (updateWebview p1))
               = chatHistory p1).
  { unfold showTypingIndicator.
    by rewrite chatHistory_postMessage, chatHistory_updateWebview. }
  eexists _, h. cbn [model messages].
  destruct (decide (maxHistory p = 0)) as [H0|H0].
  - exists 0%nat. split_and!; try done; [lia|].
    rewrite addMessageToHistory_zero by congruence. by rewrite Hc.
  - exists (length (chatHistory p1) + 1 - Z.to_nat (2 * maxHistory p))%nat.
    split_and!; try done.
    + assert (length (chatHistory p1) <= Z.to_nat (2 * maxHistory p))%nat;
        [|lia].
      unfold p1. rewrite addMessageToHistory_keep_last by lia.
      rewrite keep_last_length. lia.
    + rewrite addMessageToHistory_keep_last by lia.
      rewrite Hm, Hc. unfold keep_last. by rewrite length_app.
Qed.

Lemma request_is_history_before_placeholder_witness :
  exists req h k,
    (send (str "m") (str " Hello ") (init 20 true)).2 = Some req
    /\ model req = str "m"
    /\ messages req
       = chatHistory
           (addMessageToHistory (userTurn (str " Hello ")) (init 20 true))
    /\ messages req = h ++ [userTurn (str " Hello ")]
    /\ (k <= 1)%nat
    /\ chatHistory (send (str "m") (str " Hello ") (init 20 true)).1
       = drop k (messages req ++ [placeholder]).
Proof.
  apply request_is_history_before_placeholder;
    [simpl; lia | vm_compute; discriminate].
Defined.

End ChatProperties.

(** ** The stream client *)

Section StreamProperties.

Import OllamaApi.

(** C1, on the code: a request that connects and whose stream carries
    two fragments. The first thing the caller observes is the resolution
    of the promise; both calls of [onChunk] come after it. *)
Theorem promise_resolved_before_fragments :
  streamChatCompletion
    (post_response
       [data (wire "{'message':{'role':'assistant','content':'Hi'},'done':false}" ++ [Js.LF]);
        data (wire "{'message':{'role':'assistant','content':' there'},'done':true}" ++ [Js.LF]);
        end_])
  = [resolve; onChunk (Json.Str (str "Hi"));
     onChunk (Json.Str (str " there"))].
Proof. vm_compute. reflexivity. Qed.

(** Whatever the stream carries, the promise is resolved first and
    every call of [onChunk] follows. *)
Lemma resolve_comes_first events :
  exists l,
    streamChatCompletion (post_response events) = resolve :: l
    /\ Forall (fun a => exists v, a = onChunk v) l.
Proof.
  exists (emit events). split; [done|].
  rewrite emit_contents.
  induction (contents events) as [|v vs IH]; constructor; eauto.
Qed.

(** *** Lines and chunks *)

Lemma split_no_sep sep s : sep ∉ s -> Js.split sep s = [s].
Proof.
  induction s as [|c r IH]; intros Hn; [done|]. simpl.
  apply not_elem_of_cons in Hn as [Hc Hr].
  destruct (N.eqb_spec c sep) as [->|_]; [done|]. by rewrite IH.
Qed.

Lemma split_line sep s : sep ∉ s -> Js.split sep (s ++ [sep]) = [s; []].
Proof.
  induction s as [|c r IH]; intros Hn; simpl.
  - by rewrite N.eqb_refl.
  - apply not_elem_of_cons in Hn as [Hc Hr].
    destruct (N.eqb_spec c sep) as [->|_]; [done|]. by rewrite IH.
Qed.

Lemma trimStart_nil s : Js.trimStart s = [] -> Forall (fun c => Js.is_ws c = true) s.
Proof.
  induction s as [|c r IH]; intros H; [constructor|]. simpl in H.
  destruct (Js.is_ws c) eqn:Hc; [|done]. constructor; auto.
Qed.

Lemma trimStart_snoc s c :
  Js.is_ws c = false -> Js.trimStart (s ++ [c]) <> [].
Proof.
  intros Hc. induction s as [|x r IH]; simpl.
  - by rewrite Hc.
  - by destruct (Js.is_ws x).
Qed.

(** A string that [trim] empties holds white space only. *)
Lemma trim_nil s : Js.trim s = [] -> Forall (fun c => Js.is_ws c = true) s.
Proof.
  unfold Js.trim, Js.trimEnd. intros H.
  apply (f_equal (@rev N)) in H. rewrite rev_involutive in H. simpl in H.
  induction s as [|c r IH]; [constructor|]. simpl in *.
  destruct (Js.is_ws c) eqn:Hc; [constructor; auto|].
  exfalso. revert H. apply trimStart_snoc. done.
Qed.

Lemma idle_ws c :
  Js.is_ws c = true ->
  Json.idle c = Some ([], Json.LIdle) \/ Json.idle c = None.
Proof.
  intros Hc.
  assert (Hr : (c <= 13 \/ c = 32 \/ 160 <= c)%N).
  { unfold Js.is_ws in Hc.
    rewrite !orb_true_iff, !andb_true_iff, !N.eqb_eq, !N.leb_le in Hc.
    lia. }
  unfold Json.idle, Json.is_digit, Json.is_lower.
  destruct (Json.is_json_ws c); [by left|]. right.
  repeat match goal with
    | |- context [(c =? ?k)%N] => destruct (N.eqb_spec c k); [lia|]
    | |- context [(?k <=? c)%N] => destruct (N.leb_spec k c)
    | |- context [(c <=? ?k)%N] => destruct (N.leb_spec c k)
    end; simpl; try done; lia.
Qed.

Lemma lex_ws s :
  Forall (fun c => Js.is_ws c = true) s ->
  Json.lex Json.LIdle s = Some [] \/ Json.lex Json.LIdle s = None.
Proof.
  induction 1 as [|c r Hc _ IH]; [by left|]. simpl.
  destruct (idle_ws c Hc) as [-> | ->]; [|by right]. simpl.
  destruct IH as [-> | ->]; [by left|by right].
Qed.

(** [JSON.parse] refuses a text of white space. *)
Lemma parse_blank s : Js.trim s = [] -> Json.parse s = None.
Proof.
  intros H. apply trim_nil, lex_ws in H. unfold Json.parse.
  by destruct H as [-> | ->].
Qed.

Lemma on_line_refused s : Json.parse s = None -> on_line s = [].
Proof. intros H. unfold on_line. by rewrite H. Qed.

Lemma on_line_blank s : Js.trim s = [] -> on_line s = [].
Proof. intros H. unfold on_line. by rewrite parse_blank. Qed.

(** A chunk that is one line, with or without its line feed. *)
Lemma on_data_line s : Js.LF ∉ s -> on_data (s ++ [Js.LF]) = on_line s.
Proof.
  intros Hn. unfold on_data. rewrite split_line by done.
  rewrite filter_cons. destruct (decide (Js.trim s <> [])) as [Hs|Hs].
  - rewrite filter_cons_False by (intros H; by apply H).
    simpl. by rewrite app_nil_r.
  - rewrite filter_cons_False by (intros H; by apply H). simpl.
    symmetry. apply on_line_blank. by apply dec_stable.
Qed.

Lemma on_data_part s : Js.LF ∉ s -> on_data s = on_line s.
Proof.
  intros Hn. unfold on_data. rewrite split_no_sep by done.
  rewrite filter_cons. destruct (decide (Js.trim s <> [])) as [Hs|Hs].
  - simpl. by rewrite app_nil_r.
  - simpl. symmetry. apply on_line_blank. by apply dec_stable.
Qed.

Lemma emit_chunks chunks :
  emit (map data chunks)
  = flat_map (fun chunk => map onChunk (on_data chunk)) chunks.
Proof.
  induction chunks as [|c r IH]; [done|]. simpl. by rewrite IH.
Qed.

(** C2, as stated, fails: one line of the wire, cut in two by a chunk
    boundary. Sent whole it gives one call of [onChunk]; sent in its two
    parts it gives none, each part being refused by [JSON.parse] and
    dropped. *)
Lemma split_line_is_dropped :
  let a := wire "{'message':{'role':'assis" in
  let b := wire "tant','content':'Hi'},'done':false}" in
  emit [data ((a ++ b) ++ [Js.LF])] = [onChunk (Json.Str (str "Hi"))]
  /\ emit [data a; data (b ++ [Js.LF])] = [].
Proof. split; vm_compute; reflexivity. Qed.

(** C2, amended: the ['data'] listener keeps nothing from one chunk to
    the next; every chunk is split at its line feeds and every piece that
    is not blank is parsed on its own. So the calls of [onChunk] for a
    sequence of chunks are those of each chunk taken alone; a line that
    lies within one chunk gives exactly the call for its content; and a
    line cut by a chunk boundary into two parts that [JSON.parse] refuses
    gives no call at all. *)
Theorem chunks_are_parsed_one_by_one a b v :
  Js.LF ∉ (a ++ b) ->
  on_line (a ++ b) = [v] ->
  Json.parse a = None -> Json.parse b = None ->
  (forall chunks,
      emit (map data chunks)
      = flat_map (fun chunk => map onChunk (on_data chunk)) chunks)
  /\ emit [data ((a ++ b) ++ [Js.LF])] = [onChunk v]
  /\ emit [data a; data (b ++ [Js.LF])] = [].
Proof.
  intros Hn Hv Ha Hb. split; [apply emit_chunks|].
  apply on_line_refused in Ha, Hb.
  assert ((Js.LF ∉ a) /\ (Js.LF ∉ b)) as [Hna Hnb].
  { split; intros H; apply Hn; apply elem_of_app; auto. }
  cbn [emit]. rewrite !app_nil_r.
  rewrite (on_data_line (a ++ b)), (on_data_line b), (on_data_part a)
    by done.
  by rewrite Hv, Ha, Hb.
Qed.

Lemma chunks_are_parsed_one_by_one_witness :
  (forall chunks,
      emit (map data chunks)
      = flat_map (fun chunk => map onChunk (on_data chunk)) chunks)
  /\ emit [data ((wire "{'message':{'role':'assis"
                  ++ wire "tant','content':'Hi'},'done':false}")
                 ++ [Js.LF])]
     = [onChunk (Json.Str (str "Hi"))]
  /\ emit [data (wire "{'message':{'role':'assis");
           data (wire "tant','content':'Hi'},'done':false}" ++ [Js.LF])]
     = [].
Proof.
  apply chunks_are_parsed_one_by_one.
  - vm_compute. intros H. repeat (apply elem_of_cons in H as [H|H]; [discriminate H|]).
    by apply elem_of_nil in H.
  - vm_compute. reflexivity.
  - vm_compute. reflexivity.
  - vm_compute. reflexivity.
Defined.

End StreamProperties.

(** ** The completion provider *)

Section CompletionProperties.

Import OllamaCompletionProvider.

Lemma for_range_cons a b : a <= b -> for_range a b = a :: for_range (a + 1) b.
Proof.
  intros Hab. unfold for_range.
  replace (Z.to_nat (b - a + 1)) with (S (Z.to_nat (b - (a + 1) + 1))) by lia.
  cbn [seq map]. f_equal; [lia|].
  rewrite <- seq_shift, map_map. apply map_ext. intros k. lia.
Qed.

Lemma for_range_nil a b : b < a -> for_range a b = [].
Proof.
  intros Hab. unfold for_range.
  by replace (Z.to_nat (b - a + 1)) with 0%nat by lia.
Qed.

Lemma lineAt_in_range d a :
  0 <= a < lineCount d -> lineAt d a = lines d !! Z.to_nat a.
Proof.
  intros H. unfold lineAt.
  destruct (Z.leb_spec 0 a); [|lia].
  by destruct (Z.ltb_spec a (lineCount d)); [|lia].
Qed.

(** The lines [a .. b] of a document, read one by one. *)
Lemma mapM_lineAt d (n : nat) : forall a b,
  0 <= a -> b < lineCount d -> Z.to_nat (b - a + 1) = n ->
  mapM (lineAt d) (for_range a b) = Some (lines_between d a b).
Proof.
  induction n as [|n IH]; intros a b Ha Hb Hn.
  - rewrite for_range_nil by lia. unfold lines_between. by rewrite Hn.
  - rewrite for_range_cons by lia. cbn [mapM].
    unfold lines_between. rewrite Hn.
    assert (Hl : exists t, lines d !! Z.to_nat a = Some t).
    { apply lookup_lt_is_Some. unfold lineCount in Hb. lia. }
    destruct Hl as [t Ht].
    rewrite (lineAt_in_range d a), Ht by lia. cbn.
    rewrite (IH (a + 1) b) by lia. cbn.
    unfold lines_between.
    replace (Z.to_nat (b - (a + 1) + 1)) with n by lia.
    rewrite (drop_S _ t (Z.to_nat a)) by done. cbn [take].
    by replace (Z.to_nat (a + 1)) with (S (Z.to_nat a)) by lia.
Qed.

Lemma mapM_ext_in {A B} (f g : A -> option B) l :
  (forall x, x ∈ l -> f x = g x) -> mapM f l = mapM g l.
Proof.
  induction l as [|x l IH]; intros H; [done|]. cbn [mapM].
  rewrite (H x) by left. rewrite IH; [done|].
  intros y Hy. apply H. by right.
Qed.

Lemma mapM_app_Some {A B} (f : A -> option B) l1 l2 k1 k2 :
  mapM f l1 = Some k1 -> mapM f l2 = Some k2 ->
  mapM f (l1 ++ l2) = Some (k1 ++ k2).
Proof.
  revert k1.
  induction l1 as [|x l1 IH]; intros k1 H1 H2; cbn [mapM app] in *.
  - cbn in H1. by injection H1 as <-.
  - destruct (f x) as [y|]; [|done]. cbn in *.
    destruct (mapM f l1) as [k|]; [|done]. cbn in *.
    injection H1 as <-. rewrite (IH k eq_refl H2). reflexivity.
Qed.

Lemma for_range_split a l b :
  a <= l <= b ->
  for_range a b = for_range a (l - 1) ++ l :: for_range (l + 1) b.
Proof.
  intros H. remember (Z.to_nat (l - a)) as n eqn:Hn.
  revert a H Hn. induction n as [|n IH]; intros a H Hn.
  - assert (a = l) as -> by lia.
    rewrite (for_range_nil l (l - 1)) by lia. simpl.
    apply for_range_cons. lia.
  - rewrite (for_range_cons a b), (for_range_cons a (l - 1)) by lia.
    rewrite (IH (a + 1)) by lia. done.
Qed.

Lemma elem_of_for_range i a b : i ∈ for_range a b -> a <= i <= b.
Proof.
  unfold for_range. intros H.
  apply list_elem_of_In, in_map_iff in H as (k & <- & Hk).
  apply in_seq in Hk. lia.
Qed.

(** C3, as stated, fails: a document of two lines with the cursor in the
    first one. The context lines of the prompt hold the second line in
    full, which the window of the specification does not. *)
Lemma context_holds_lines_after_cursor :
  let d := {| lines := [str "let x = 1;"; str "let y = 2;"];
              languageId := str "javascript";
              fileName := str "/src/a.js" |} in
  let pos := {| line := 0; character := 3 |} in
  getContextLines d pos = Some [str "let"; str "let y = 2;"]
  /\ spec_prefix_window d pos = Some [str "let"].
Proof. split; vm_compute; reflexivity. Qed.

(** C3, amended: for a cursor on a line of the document, the context
    lines of the prompt are the lines from [max(0, line - 10)] up to the
    line before the cursor's, in full; then the cursor's line cut at the
    cursor column; then the lines after it through
    [min(lineCount - 1, line + 5)], in full. No line before
    [max(0, line - 10)] and no line after [line + 5] is part of it. *)
Theorem getContextLines_window d pos t :
  lineAt d (line pos) = Some t ->
  getContextLines d pos
  = Some (lines_between d (Z.max 0 (line pos - 10)) (line pos - 1)
          ++ Js.substring t 0 (character pos)
          :: lines_between d (line pos + 1)
               (Z.min (lineCount d - 1) (line pos + 5))).
Proof.
  intros Ht.
  assert (Hl : 0 <= line pos < lineCount d).
  { unfold lineAt in Ht.
    destruct (Z.leb_spec 0 (line pos)); [|done].
    destruct (Z.ltb_spec (line pos) (lineCount d)); [lia|done]. }
  unfold getContextLines. cbv zeta.
  set (f := fun i : Z => if i =? line pos then _ else _).
  rewrite (for_range_split _ (line pos)) by lia.
  apply mapM_app_Some.
  - rewrite (mapM_ext_in f (lineAt d)).
    + by eapply mapM_lineAt; [lia|lia|].
    + intros i Hi. apply elem_of_for_range in Hi. unfold f.
      destruct (Z.eqb_spec i (line pos)); [lia|done].
  - cbn [mapM].
    assert (Hf : f (line pos) = Some (Js.substring t 0 (character pos))).
    { subst f. cbv beta. by rewrite Z.eqb_refl, Ht. }
    rewrite Hf. cbn.
    rewrite (mapM_ext_in f (lineAt d)).
    + erewrite mapM_lineAt; [done|lia|lia|done].
    + intros i Hi. apply elem_of_for_range in Hi. unfold f.
      destruct (Z.eqb_spec i (line pos)); [lia|done].
Qed.

Lemma getContextLines_window_witness :
  getContextLines
    {| lines := [str "let x = 1;"; str "let y = 2;"];
       languageId := str "javascript"; fileName := str "/src/a.js" |}
    {| line := 0; character := 3 |}
  = Some (lines_between
            {| lines := [str "let x = 1;"; str "let y = 2;"];
               languageId := str "javascript";
               fileName := str "/src/a.js" |}
            (Z.max 0 (0 - 10)) (0 - 1)
          ++ Js.substring (str "let x = 1;") 0 3
          :: lines_between
               {| lines := [str "let x = 1;"; str "let y = 2;"];
                  languageId := str "javascript";
                  fileName := str "/src/a.js" |}
               (0 + 1) (Z.min (2 - 1) (0 + 5))).
Proof.
  apply (getContextLines_window
           {| lines := [str "let x = 1;"; str "let y = 2;"];
              languageId := str "javascript"; fileName := str "/src/a.js" |}
           {| line := 0; character := 3 |} (str "let x = 1;")).
  reflexivity.
Defined.

(** C6: the echo check of [processCompletion]. Whenever the cleaned
    response (fences stripped, leading white space of the first line
    removed, cut at the first line feed), once trimmed, is the trimmed
    text before the cursor, the result is the empty string; and so it is
    for the fenced [return x] after the typed prefix ["  return x"]. *)
Theorem echo_is_suppressed completion document position currentLineText :
  lineAt document (line position) = Some currentLineText ->
  let linePrefix := Js.substring currentLineText 0 (character position) in
  (Js.trim (cleanCompletion completion) = Js.trim linePrefix ->
   processCompletion completion document position = Some [])
  /\ (linePrefix = str "  return x" ->
      processCompletion fenced_echo document position = Some []).
Proof.
  intros Ht linePrefix. split.
  - intros He. unfold processCompletion.
    destruct completion as [|c r]; [done|].
    rewrite Ht. cbn [mbind option_bind]. fold linePrefix.
    unfold Js.eqb. by rewrite bool_decide_eq_true_2.
  - intros Hp. change (processCompletion fenced_echo document position)
      with (t ← lineAt document (line position);
            if Js.eqb (Js.trim (cleanCompletion fenced_echo))
                 (Js.trim (Js.substring t 0 (character position)))
            then Some [] else Some (cleanCompletion fenced_echo)).
    rewrite Ht. cbn [mbind option_bind]. fold linePrefix. rewrite Hp.
    vm_compute. reflexivity.
Qed.

Lemma echo_is_suppressed_witness :
  let d := {| lines := [str "function f(x) {"; str "  return x;"; str "}"];
              languageId := str "javascript";
              fileName := str "/src/f.js" |} in
  let pos := {| line := 1; character := 10 |} in
  processCompletion (str "   return x  ") d pos = Some []
  /\ processCompletion fenced_echo d pos = Some [].
Proof.
  intros d pos.
  destruct (echo_is_suppressed (str "   return x  ") d pos (str "  return x;")
              eq_refl) as [H1 _].
  destruct (echo_is_suppressed fenced_echo d pos (str "  return x;")
              eq_refl) as [_ H2].
  split; [apply H1 | apply H2]; vm_compute; reflexivity.
Defined.

(** X5: the suffix window is what follows the cursor on its line and
    the lines after it through [min(lineCount - 1, line + 3)], trimmed as
    a whole; no line past the last one is read. *)
Lemma getSuffix_window d pos t :
  lineAt d (line pos) = Some t ->
  getSuffix d pos
  = Some (Js.trim
            (Js.join Js.LF
               (Js.substring_from t (character pos)
                :: lines_between d (line pos + 1)
                     (Z.min (lineCount d - 1) (line pos + 3))))).
Proof.
  intros Ht.
  assert (Hl : 0 <= line pos < lineCount d).
  { unfold lineAt in Ht.
    destruct (Z.leb_spec 0 (line pos)); [|done].
    destruct (Z.ltb_spec (line pos) (lineCount d)); [lia|done]. }
  unfold getSuffix. rewrite Ht. cbn [mbind option_bind]. cbv zeta.
  erewrite mapM_lineAt; [done|lia|lia|done].
Qed.

(** What [getCompletion] sends for the two lines above: the prompt holds
    the line after the cursor, and so does the suffix. *)
Example request_of_two_lines :
  let d := {| lines := [str "let x = 1;"; str "let y = 2;"];
              languageId := str "javascript";
              fileName := str "/src/a.js" |} in
  completionRequest d {| line := 0; character := 3 |}
  = Some (buildPrompt d [str "let"; str "let y = 2;"],
          str "x = 1;" ++ [Js.LF] ++ str "let y = 2;").
Proof. vm_compute. reflexivity. Qed.

(** The steps of the scenario: what is left of the response after the
    cleaning, and a response that is no echo. *)
Example fenced_echo_cleaned : cleanCompletion fenced_echo = str "return x".
Proof. vm_compute. reflexivity. Qed.

Example completion_kept :
  processCompletion
    (str "```js" ++ [Js.LF] ++ str "  return x + 1;" ++ [Js.LF]
     ++ str "}" ++ [Js.LF] ++ str "```")
    {| lines := [str "  return x"]; languageId := str "javascript";
       fileName := str "/src/f.js" |}
    {| line := 0; character := 10 |}
  = Some (str "return x + 1;").
Proof. vm_compute. reflexivity. Qed.

End CompletionProperties.

(** ** More on strings *)

Section StringFacts.

Implicit Types (s : list N) (c : N).

Lemma trimStart_suffix s : exists pre, s = pre ++ Js.trimStart s.
Proof.
  induction s as [|c r [pre IH]]; [by exists []|]. simpl.
  destruct (Js.is_ws c); [|by exists []].
  exists (c :: pre). simpl. by rewrite <- IH.
Qed.

Lemma trimStart_head s :
  match Js.trimStart s with
  | [] => True
  | c :: _ => Js.is_ws c = false
  end.
Proof.
  induction s as [|c r IH]; [done|]. simpl.
  by destruct (Js.is_ws c) eqn:Hc.
Qed.

Lemma trimStart_fixed s :
  match s with [] => True | c :: _ => Js.is_ws c = false end ->
  Js.trimStart s = s.
Proof. destruct s as [|c r]; [done|]. simpl. by intros ->. Qed.

Lemma trimStart_idem s : Js.trimStart (Js.trimStart s) = Js.trimStart s.
Proof. apply trimStart_fixed, trimStart_head. Qed.

Lemma trimEnd_prefix s : exists post, s = Js.trimEnd s ++ post.
Proof.
  unfold Js.trimEnd. destruct (trimStart_suffix (rev s)) as [pre H].
  exists (rev pre). rewrite <- rev_app_distr, <- H. by rewrite rev_involutive.
Qed.

(** What [trim] gives is a piece of its argument. *)
Lemma trim_infix s : exists pre post, s = pre ++ Js.trim s ++ post.
Proof.
  unfold Js.trim. destruct (trimStart_suffix s) as [pre H].
  destruct (trimEnd_prefix (Js.trimStart s)) as [post H'].
  exists pre, post. by rewrite <- H', <- H.
Qed.

Lemma head_prefix s1 s2 c r :
  s1 ++ s2 = c :: r -> s1 <> [] -> exists r', s1 = c :: r'.
Proof. destruct s1 as [|x r']; [done|]. intros [= -> _] _. eauto. Qed.

(** [trim] gives a string that [trim] leaves as it is. *)
Lemma trim_idem s : Js.trim (Js.trim s) = Js.trim s.
Proof.
  unfold Js.trim at 2. set (a := Js.trimStart s).
  assert (Ha : match a with [] => True | c :: _ => Js.is_ws c = false end)
    by apply trimStart_head.
  unfold Js.trimEnd. set (b := Js.trimStart (rev a)).
  assert (Hb : Js.trimStart b = b) by apply trimStart_idem.
  destruct (trimStart_suffix (rev a)) as [pre Hpre]. fold b in Hpre.
  assert (Hu : Js.trimStart (rev b) = rev b).
  { apply trimStart_fixed. destruct (rev b) as [|c r] eqn:E; [done|].
    assert (a = rev b ++ rev pre) as Hab.
    { rewrite <- rev_app_distr, <- Hpre. by rewrite rev_involutive. }
    rewrite E in Hab. rewrite Hab in Ha. exact Ha. }
  unfold Js.trim, Js.trimEnd. rewrite Hu, rev_involutive, Hb. done.
Qed.

Lemma split_nonempty sep s : Js.split sep s <> [].
Proof.
  destruct s as [|c r]; [done|]. simpl.
  destruct (c =? sep)%N; [done|]. by destruct (Js.split sep r).
Qed.

(** The pieces of [split] do not hold the separator. *)
Lemma split_pieces sep s : Forall (fun piece => sep ∉ piece) (Js.split sep s).
Proof.
  induction s as [|c r IH]; simpl.
  - constructor; [|constructor]. apply not_elem_of_nil.
  - destruct (N.eqb_spec c sep) as [->|Hc].
    + constructor; [apply not_elem_of_nil|done].
    + destruct (Js.split sep r) as [|h t]; inversion IH; subst.
      * constructor; [|constructor]. apply not_elem_of_cons. split; [done|].
        apply not_elem_of_nil.
      * constructor; [|done]. apply not_elem_of_cons. by split.
Qed.

Lemma split_app sep a b :
  Js.split sep (a ++ sep :: b) = Js.split sep a ++ Js.split sep b.
Proof.
  induction a as [|c r IH]; simpl.
  - by rewrite N.eqb_refl.
  - destruct (c =? sep)%N; [by rewrite IH|]. rewrite IH.
    pose proof (split_nonempty sep r). by destruct (Js.split sep r).
Qed.

(** [split] then [join] gives the string back. *)
Lemma join_split sep s : Js.join sep (Js.split sep s) = s.
Proof.
  induction s as [|c r IH]; [done|]. simpl.
  pose proof (split_nonempty sep r) as Hne.
  destruct (N.eqb_spec c sep) as [->|Hc].
  - simpl. destruct (Js.split sep r) as [|h t]; [done|].
    simpl in *. by rewrite IH.
  - destruct (Js.split sep r) as [|h t]; [done|].
    simpl in *. destruct t; simpl in *; by rewrite <- IH.
Qed.

Lemma indexOf_absent c s : c ∉ s -> Js.indexOf c s = -1.
Proof.
  induction s as [|x r IH]; [done|]. intros Hn.
  apply not_elem_of_cons in Hn as [Hx Hr]. simpl.
  destruct (N.eqb_spec x c) as [->|_]; [done|]. by rewrite IH.
Qed.

Lemma indexOf_first c a b :
  c ∉ a -> Js.indexOf c (a ++ c :: b) = Z.of_nat (length a).
Proof.
  induction a as [|x r IH]; intros Hn; simpl.
  - by rewrite N.eqb_refl.
  - apply not_elem_of_cons in Hn as [Hx Hr].
    destruct (N.eqb_spec x c) as [->|_]; [done|]. rewrite IH by done.
    destruct (Z.ltb_spec (Z.of_nat (length r)) 0); lia.
Qed.

Lemma substring_prefix a b :
  Js.substring (a ++ b) 0 (Z.of_nat (length a)) = a.
Proof.
  unfold Js.substring, Js.clamp. rewrite length_app.
  replace (Z.min (Z.max 0 0) _) with 0 by lia.
  replace (Z.min (Z.max (Z.of_nat (length a)) 0) _)
    with (Z.of_nat (length a)) by lia.
  replace (Z.min 0 _) with 0 by lia.
  replace (Z.max 0 _) with (Z.of_nat (length a)) by lia.
  rewrite Z.sub_0_r, Nat2Z.id. change (Z.to_nat 0) with 0%nat.
  rewrite drop_0. by rewrite take_app_length.
Qed.

End StringFacts.

(** ** More on the completion provider *)

Section CompletionText.

Import OllamaCompletionProvider.

Lemma skip_while_suffix f s : exists pre, s = pre ++ Js.skip_while f s.
Proof.
  induction s as [|c r [pre IH]]; [by exists []|]. simpl.
  destruct (f c); [|by exists []].
  exists (c :: pre). simpl. by rewrite <- IH.
Qed.

Lemma strip_fence_open_suffix s : exists pre, s = pre ++ strip_fence_open s.
Proof.
  unfold strip_fence_open.
  repeat case_match; subst; try (by exists []);
    match goal with
    | H : Js.skip_while _ ?r = _ |- _ =>
        destruct (skip_while_suffix Js.is_word r) as [pre Hp];
        rewrite H in Hp; rewrite Hp
    end;
    first [ by exists (96 :: 96 :: 96 :: pre)%N
          | exists ((96 :: 96 :: 96 :: pre) ++ [10])%N;
            by rewrite <- app_assoc ].
Qed.

Lemma strip_fence_close_prefix s : exists post, s = strip_fence_close s ++ post.
Proof.
  induction s as [|c r [post IH]]; [by exists []|].
  cbn [strip_fence_close].
  destruct (Js.eqb (c :: r) (Js.LF :: str "```") || Js.eqb (c :: r) (str "```")).
  - by exists (c :: r).
  - exists post. simpl. by rewrite <- IH.
Qed.

(** The first piece of [split] is the start of the string. *)
Lemma split_head sep s :
  exists first rest post,
    Js.split sep s = first :: rest /\ (sep ∉ first) /\ s = first ++ post.
Proof.
  pose proof (split_pieces sep s) as Hp.
  pose proof (join_split sep s) as Hj.
  pose proof (split_nonempty sep s) as Hne.
  destruct (Js.split sep s) as [|first rest]; [done|].
  apply Forall_cons in Hp as [Hf _].
  destruct rest as [|r1 rs].
  - exists first, [], []. simpl in Hj. by rewrite app_nil_r.
  - exists first, (r1 :: rs), (sep :: Js.join sep (r1 :: rs)).
    split; [done|]. split; [done|]. by rewrite <- Hj.
Qed.

(** What [processCompletion] keeps of the response before it looks for an
    echo: the first line of the unfenced text, without the white space in
    front of it. *)
Lemma cleanCompletion_first_line completion first rest :
  Js.split Js.LF (strip_fence_close (strip_fence_open (Js.trim completion)))
  = first :: rest ->
  cleanCompletion completion = Js.trimStart first.
Proof.
  intros Hs. unfold cleanCompletion. cbv zeta. rewrite Hs. cbn [cleanLines].
  pose proof (split_pieces Js.LF
                (strip_fence_close (strip_fence_open (Js.trim completion))))
    as Hp.
  rewrite Hs in Hp. apply Forall_cons in Hp as [Hf _].
  assert (Hn : Js.LF ∉ Js.trimStart first).
  { destruct (trimStart_suffix first) as [pre Hpre]. intros Hin. apply Hf.
    rewrite Hpre. apply elem_of_app. by right. }
  destruct rest as [|r1 rs].
  - cbn [Js.join]. by rewrite indexOf_absent.
  - change (Js.join Js.LF (Js.trimStart first :: r1 :: rs))
      with (Js.trimStart first ++ Js.LF :: Js.join Js.LF (r1 :: rs)).
    rewrite indexOf_first by done.
    destruct (Z.eqb_spec (Z.of_nat (length (Js.trimStart first))) (-1)); [lia|].
    cbn [negb]. apply substring_prefix.
Qed.

Lemma cleanCompletion_shape completion :
  (Js.LF ∉ cleanCompletion completion)
  /\ Js.trimStart (cleanCompletion completion) = cleanCompletion completion
  /\ exists pre post,
       completion = pre ++ cleanCompletion completion ++ post.
Proof.
  destruct (split_head Js.LF
              (strip_fence_close (strip_fence_open (Js.trim completion))))
    as (first & rest & post & Hs & Hf & Hpost).
  rewrite (cleanCompletion_first_line _ _ _ Hs).
  destruct (trimStart_suffix first) as [pre1 Hpre1].
  split; [|split].
  - intros Hin. apply Hf. rewrite Hpre1. apply elem_of_app. by right.
  - apply trimStart_idem.
  - destruct (trim_infix completion) as (pre2 & post2 & Ht).
    destruct (strip_fence_open_suffix (Js.trim completion)) as [pre3 Ho].
    destruct (strip_fence_close_prefix (strip_fence_open (Js.trim completion)))
      as [post3 Hc].
    exists (pre2 ++ pre3 ++ pre1), (post ++ post3 ++ post2).
    rewrite Ht at 1. rewrite Ho at 1. rewrite Hc at 1. rewrite Hpost at 1.
    rewrite Hpre1 at 1. by rewrite <- !app_assoc.
Qed.

Lemma processCompletion_inv completion document position r :
  processCompletion completion document position = Some r ->
  r = [] \/ r = cleanCompletion completion.
Proof.
  unfold processCompletion. destruct completion as [|c0 r0]; [by intros [= <-]; left|].
  destruct (lineAt document (line position)) as [t|]; [|done].
  cbn [mbind option_bind].
  case_match; intros [= <-]; [by left|by right].
Qed.

(** X1: whatever the model answers, the text that [processCompletion]
    hands on is one line and does not begin with white space. *)
Theorem completion_is_one_line completion document position r :
  processCompletion completion document position = Some r ->
  (Js.LF ∉ r) /\ Js.trimStart r = r.
Proof.
  intros H. destruct (processCompletion_inv _ _ _ _ H) as [-> | ->].
  - split; [apply not_elem_of_nil|done].
  - destruct (cleanCompletion_shape completion) as (H1 & H2 & _). done.
Qed.

Lemma completion_is_one_line_witness :
  (Js.LF ∉ str "return x + 1;") /\ Js.trimStart (str "return x + 1;") = str "return x + 1;".
Proof.
  apply (completion_is_one_line
           (str "```js" ++ [Js.LF] ++ str "  return x + 1;" ++ [Js.LF]
            ++ str "}" ++ [Js.LF] ++ str "```")
           {| lines := [str "  return x"]; languageId := str "javascript";
              fileName := str "/src/f.js" |}
           {| line := 0; character := 10 |}).
  vm_compute. reflexivity.
Defined.

(** X2: the text that [processCompletion] hands on is taken from the
    response as it stands: it is a piece of the response, nothing is
    added to it or changed inside it. *)
Theorem completion_is_piece_of_response completion document position r :
  processCompletion completion document position = Some r ->
  exists pre post, completion = pre ++ r ++ post.
Proof.
  intros H. destruct (processCompletion_inv _ _ _ _ H) as [-> | ->].
  - by exists [], completion.
  - by destruct (cleanCompletion_shape completion) as (_ & _ & H3).
Qed.

Lemma completion_is_piece_of_response_witness :
  exists pre post,
    str "```js" ++ [Js.LF] ++ str "  return x + 1;" ++ [Js.LF]
    ++ str "}" ++ [Js.LF] ++ str "```"
    = pre ++ str "return x + 1;" ++ post.
Proof.
  apply (completion_is_piece_of_response _
           {| lines := [str "  return x"]; languageId := str "javascript";
              fileName := str "/src/f.js" |}
           {| line := 0; character := 10 |}).
  vm_compute. reflexivity.
Defined.

Lemma last_split_app sep a b :
  last (Js.split sep (a ++ sep :: b)) = last (Js.split sep b).
Proof.
  rewrite split_app. pose proof (split_nonempty sep b) as Hne.
  destruct (Js.split sep b) as [|x l] eqn:E using rev_ind; [done|].
  by rewrite app_assoc, !last_snoc.
Qed.

(** X3: the file name that [buildPrompt] writes into the prompt is never
    empty and never holds a slash. *)
Theorem baseName_shape f : baseName f <> [] /\ (Js.SLASH ∉ baseName f).
Proof.
  unfold baseName.
  pose proof (split_pieces Js.SLASH f) as Hp.
  destruct (last (Js.split Js.SLASH f)) as [[|c r]|] eqn:E.
  - split; [done|]. vm_compute. intros H.
    repeat (apply elem_of_cons in H as [H|H]; [discriminate H|]).
    by apply elem_of_nil in H.
  - split; [done|]. apply last_Some in E as [l' E]. rewrite E in Hp.
    apply Forall_app in Hp as [_ Hp].
    apply Forall_cons in Hp as [Hp _]. exact Hp.
  - split; [done|]. vm_compute. intros H.
    repeat (apply elem_of_cons in H as [H|H]; [discriminate H|]).
    by apply elem_of_nil in H.
Qed.

(** X4: for a path whose last slash is followed by a name, the prompt
    carries that name; a path without any slash is carried whole; and a
    path that ends in a slash is replaced by the word [file]. *)
Theorem baseName_of_path dir name :
  Js.SLASH ∉ name -> name <> [] ->
  baseName (dir ++ Js.SLASH :: name) = name
  /\ baseName name = name
  /\ baseName (dir ++ [Js.SLASH]) = str "file".
Proof.
  intros Hn Hne. unfold baseName.
  rewrite !last_split_app, (split_no_sep _ name) by done.
  destruct name as [|c r]; [done|]. done.
Qed.

Lemma baseName_of_path_witness :
  baseName (str "/home/me/src" ++ Js.SLASH :: str "a.js") = str "a.js"
  /\ baseName (str "a.js") = str "a.js"
  /\ baseName (str "/home/me/src" ++ [Js.SLASH]) = str "file".
Proof.
  apply baseName_of_path; [|vm_compute; discriminate].
  vm_compute. intros H.
  repeat (apply elem_of_cons in H as [H|H]; [discriminate H|]).
  by apply elem_of_nil in H.
Defined.

End CompletionText.

Section InlineCompletionProperties.

Import OllamaCompletionProvider InlineCompletion.

Lemma length_zero_iff (s : list N) : (Z.of_nat (length s) =? 0) = true <-> s = [].
Proof.
  split; [|by intros ->].
  intros H. destruct s; [done|]. apply Z.eqb_eq in H. simpl in H. lia.
Qed.

Lemma processCompletion_kept completion document position r :
  processCompletion completion document position = Some r -> r <> [] ->
  exists t,
    lineAt document (line position) = Some t
    /\ r = cleanCompletion completion
    /\ Js.trim r <> Js.trim (Js.substring t 0 (character position)).
Proof.
  unfold processCompletion. destruct completion as [|c0 r0]; [by intros [= <-]|].
  destruct (lineAt document (line position)) as [t|]; [|done].
  cbn [mbind option_bind]. unfold Js.eqb.
  case_bool_decide as He; intros [= <-] Hne; [done|]. by exists t.
Qed.

(** X6: an item that the provider offers is sound in every respect the
    code checks: completions are on, the cursor is not inside a word, the
    text before it on its line is not blank, the item is inserted at the
    cursor, and its text is one line that is not blank, does not begin
    with white space, is no echo of the text before the cursor and is a
    piece of what the service answered to the request of this document. *)
Theorem offered_item_is_sound isEnabled wordStart defaultModel maxTokens api
    cancelled document position text at_ :
  provideInlineCompletionItems isEnabled wordStart defaultModel maxTokens api
    cancelled document position = item text at_ ->
  isEnabled = true
  /\ at_ = position
  /\ (forall start, wordStart = Some start -> character position <= start)
  /\ (exists t,
        lineAt document (line position) = Some t
        /\ Js.trim (Js.substring t 0 (character position)) <> []
        /\ Js.trim text <> Js.trim (Js.substring t 0 (character position)))
  /\ Js.trim text <> []
  /\ (Js.LF ∉ text)
  /\ Js.trimStart text = text
  /\ (exists request response pre post,
        completionPayload defaultModel maxTokens document position
        = Some request
        /\ api request = ok response
        /\ response = pre ++ text ++ post).
Proof.
  unfold provideInlineCompletionItems.
  destruct isEnabled; [|done]. cbn [negb].
  destruct (match wordStart with
            | Some start => start <? character position
            | None => false
            end) eqn:Hw; [done|].
  destruct (lineAt document (line position)) as [t|] eqn:Ht; [|done].
  destruct (Z.of_nat (length (Js.trim (Js.substring t 0 (character position))))
            =? 0) eqn:Hp; [done|].
  unfold getCompletion.
  destruct (completionPayload defaultModel maxTokens document position)
    as [request|] eqn:Hr; [|done].
  unfold OllamaRequests.generateCompletion.
  destruct (api request) as [response|e] eqn:Ha; [|by destruct cancelled].
  destruct (processCompletion response document position) as [r|] eqn:Hc;
    [|by destruct cancelled].
  destruct r as [|c r]; [done|].
  destruct (Z.of_nat (length (Js.trim (c :: r))) =? 0) eqn:Hq; [done|].
  intros [= <- <-].
  destruct (processCompletion_kept _ _ _ _ Hc) as (t' & Ht' & Hr' & He);
    [done|].
  rewrite Ht in Ht'. injection Ht' as <-.
  destruct (cleanCompletion_shape response) as (H1 & H2 & pre & post & H3).
  rewrite <- Hr' in H1, H2, H3.
  split_and!; try done.
  - intros start ->. apply Z.ltb_ge in Hw. lia.
  - exists t. split_and!; try done.
    intros E. apply length_zero_iff in E. congruence.
  - intros E. apply length_zero_iff in E. congruence.
  - by exists request, response, pre, post.
Qed.

Lemma offered_item_is_sound_witness :
  let d := {| lines := [str "function f(x) {"; str "  return x"; str "}"];
              languageId := str "javascript"; fileName := str "/src/f.js" |} in
  let pos := {| line := 1; character := 10 |} in
  true = true
  /\ pos = pos
  /\ (forall start, Some 10 = Some start -> character pos <= start)
  /\ (exists t,
        lineAt d (line pos) = Some t
        /\ Js.trim (Js.substring t 0 (character pos)) <> []
        /\ Js.trim (str "+ 1;")
           <> Js.trim (Js.substring t 0 (character pos)))
  /\ Js.trim (str "+ 1;") <> []
  /\ (Js.LF ∉ str "+ 1;")
  /\ Js.trimStart (str "+ 1;") = str "+ 1;"
  /\ (exists request response pre post,
        completionPayload (str "m") 100 d pos = Some request
        /\ (fun _ => ok (str " + 1;" ++ [Js.LF] ++ str "}")) request
           = ok response
        /\ response = pre ++ str "+ 1;" ++ post).
Proof.
  intros d pos.
  apply (offered_item_is_sound true (Some 10) (str "m") 100
           (fun _ => ok (str " + 1;" ++ [Js.LF] ++ str "}")) false d pos).
  vm_compute. reflexivity.
Defined.

(** X7: with the cursor on a line of the document, the provider never
    ends in an exception; and when the service fails, it offers nothing,
    whether or not the request was cancelled. *)
Theorem completion_errors_are_absorbed isEnabled wordStart defaultModel
    maxTokens api cancelled document position t :
  lineAt document (line position) = Some t ->
  provideInlineCompletionItems isEnabled wordStart defaultModel maxTokens api
    cancelled document position <> thrown
  /\ ((forall request, exists e, api request = throws e) ->
      provideInlineCompletionItems isEnabled wordStart defaultModel maxTokens
        api cancelled document position = null).
Proof.
  intros Ht. unfold provideInlineCompletionItems. rewrite Ht.
  destruct isEnabled; cbn [negb]; [|done].
  destruct (match wordStart with
            | Some start => start <? character position
            | None => false
            end); [done|].
  destruct (Z.of_nat (length (Js.trim (Js.substring t 0 (character position))))
            =? 0); [done|].
  split.
  - destruct (getCompletion _ _ _ _ _ _) as [[[|c r]|]|e]; try done.
    by destruct (Z.of_nat (length (Js.trim (c :: r))) =? 0).
  - intros Hf. unfold getCompletion.
    destruct (completionPayload _ _ _ _) as [request|]; [|done].
    destruct (Hf request) as [e ->]. cbn. by destruct cancelled.
Qed.

Lemma completion_errors_are_absorbed_witness :
  let d := {| lines := [str "  return x"]; languageId := str "javascript";
              fileName := str "/src/f.js" |} in
  let pos := {| line := 0; character := 10 |} in
  let api := fun _ : OllamaGenerateRequest =>
               throws (A := list N) (str "connect ECONNREFUSED") in
  provideInlineCompletionItems true None (str "m") 100 api false d pos
  <> thrown
  /\ ((forall request, exists e, api request = throws e) ->
      provideInlineCompletionItems true None (str "m") 100 api false d pos
      = null).
Proof.
  intros d pos api.
  apply (completion_errors_are_absorbed true None (str "m") 100 api false d pos
           (str "  return x")).
  reflexivity.
Defined.

End InlineCompletionProperties.

(** ** More on the stream client *)

Section StreamContents.

Import OllamaApi.

Lemma on_line_truthy line v : In v (on_line line) -> Json.truthy v = true.
Proof.
  unfold on_line. repeat case_match; simpl; try tauto.
  by intros [<-|[]].
Qed.

Lemma on_data_truthy chunk v : In v (on_data chunk) -> Json.truthy v = true.
Proof.
  unfold on_data. intros H. apply in_flat_map in H as (l & _ & H).
  by eapply on_line_truthy.
Qed.

Lemma contents_truthy events v :
  In v (contents events) -> Json.truthy v = true.
Proof.
  induction events as [|[chunk| |e] rest IH]; simpl; try tauto.
  intros H. apply in_app_or in H as [H|H]; [by eapply on_data_truthy|auto].
Qed.

(** X8: [onChunk] is only ever called with a content that counts as true:
    never with the empty string, never with [null]. *)
Theorem onChunk_content_is_truthy r v :
  In (onChunk v) (streamChatCompletion r) ->
  Json.truthy v = true /\ v <> Json.Str [] /\ v <> Json.Null.
Proof.
  intros H.
  assert (Ht : Json.truthy v = true).
  { destruct r as [e|events]; simpl in H.
    - by destruct H as [H|[]].
    - destruct H as [H|H]; [done|]. rewrite emit_contents in H.
      apply in_map_iff in H as (v' & [= ->] & H). by eapply contents_truthy. }
  split; [done|]. split; intros ->; done.
Qed.

Lemma onChunk_content_is_truthy_witness :
  Json.truthy (Json.Str (str "Hi")) = true
  /\ Json.Str (str "Hi") <> Json.Str []
  /\ Json.Str (str "Hi") <> Json.Null.
Proof.
  apply (onChunk_content_is_truthy
           (post_response
              [data (wire "{'message':{'role':'assistant','content':''}}"
                     ++ [Js.LF]
                     ++ wire "{'message':{'role':'assistant','content':'Hi'}}"
                     ++ [Js.LF])])).
  vm_compute. tauto.
Defined.

Lemma on_data_app a b : on_data (a ++ Js.LF :: b) = on_data a ++ on_data b.
Proof.
  unfold on_data. cbv zeta. by rewrite split_app, filter_app, flat_map_app.
Qed.

(** X9: a chunk boundary that falls right after a line feed changes
    nothing: the calls of [onChunk] are the same whether the lines come in
    one chunk or in two. *)
Theorem chunk_boundary_at_line_feed a b rest :
  emit (data (a ++ [Js.LF]) :: data b :: rest)
  = emit (data (a ++ Js.LF :: b) :: rest).
Proof.
  cbn [emit]. rewrite !on_data_app, !map_app.
  change (on_data []) with (@nil Json.value). cbn [map].
  by rewrite app_nil_r, <- !app_assoc.
Qed.

End StreamContents.

(** ** More on the chat session *)

Section SessionInvariants.

Import OllamaApi OllamaChatProvider ChatSession.

Implicit Types (p : t) (h : list OllamaMessage) (m : OllamaMessage).

Lemma maxHistory_rejected message acc p :
  maxHistory (rejected message (acc, p)).2 = maxHistory p.
Proof.
  cbn. rewrite maxHistory_updateWebview. unfold hideTypingIndicator.
  by rewrite maxHistory_postMessage, maxHistory_addMessageToHistory.
Qed.

Lemma step_maxHistory p p' : step p p' -> maxHistory p' = maxHistory p.
Proof.
  intros [dm text|chunk acc|acc|message acc| |].
  - apply maxHistory_send.
  - cbn. by rewrite maxHistory_updateWebview, maxHistory_set_last_content.
  - cbn. rewrite maxHistory_updateWebview. unfold hideTypingIndicator.
    by rewrite maxHistory_postMessage, maxHistory_set_last_content.
  - apply maxHistory_rejected.
  - unfold clearChat. by rewrite maxHistory_updateWebview.
  - done.
Qed.

Lemma reachable_maxHistory b v p : reachable b v p -> maxHistory p = b.
Proof.
  unfold reachable. revert p. apply rtc_ind_r; [done|].
  intros p2 p3 _ Hs IH. by rewrite (step_maxHistory _ _ Hs).
Qed.

(** Appending under a bound that is not negative: some of the oldest
    turns go, the new turn is the last one. *)
Lemma addMessageToHistory_drop m p :
  0 <= maxHistory p ->
  exists k, chatHistory (addMessageToHistory m p)
            = drop k (chatHistory p) ++ [m].
Proof.
  intros Hb. destruct (decide (maxHistory p = 0)) as [H0|H0].
  - exists 0%nat. by rewrite addMessageToHistory_zero.
  - rewrite addMessageToHistory_keep_last by lia. unfold keep_last.
    eexists. rewrite drop_app_le; [done|]. rewrite length_app. simpl. lia.
Qed.

Lemma chatHistory_chunk_callback chunk acc p :
  chatHistory (chunk_callback chunk (acc, p)).2
  = chatHistory (set_last_content (acc ++ chunk) p).
Proof. cbn. by rewrite chatHistory_updateWebview. Qed.

Lemma chatHistory_resolved acc p :
  chatHistory (resolved (acc, p)).2 = chatHistory (set_last_content acc p).
Proof.
  cbn. rewrite chatHistory_updateWebview. unfold hideTypingIndicator.
  by rewrite chatHistory_postMessage.
Qed.

Lemma chatHistory_rejected message acc p :
  chatHistory (rejected message (acc, p)).2
  = chatHistory
      (addMessageToHistory
         {| role := assistant; content := str "Error: " ++ message |}
         (set_history (pop_assistant (chatHistory p)) p)).
Proof.
  cbn. rewrite chatHistory_updateWebview. unfold hideTypingIndicator.
  by rewrite chatHistory_postMessage.
Qed.

Lemma chatHistory_clearChat p : chatHistory (clearChat p) = [].
Proof. unfold clearChat. by rewrite chatHistory_updateWebview. Qed.

Lemma set_last_content_ok s p :
  ends_with_assistant (chatHistory p) ->
  Forall turn_ok (chatHistory p) ->
  ends_with_assistant (chatHistory (set_last_content s p))
  /\ Forall turn_ok (chatHistory (set_last_content s p)).
Proof.
  intros [Hn|(h & m & Hh & Hr)] Hf.
  - rewrite set_last_content_nil by done. split; [by left|done].
  - rewrite (set_last_content_snoc s p h m Hh). rewrite Hh in Hf.
    apply Forall_app in Hf as [Hf _]. split.
    + right. by eexists h, _.
    + apply Forall_app. split; [done|]. constructor; [|constructor].
      split; cbn; rewrite Hr; done.
Qed.

Lemma addMessageToHistory_ok m p :
  0 <= maxHistory p -> role m = assistant ->
  Forall turn_ok (chatHistory p) ->
  ends_with_assistant (chatHistory (addMessageToHistory m p))
  /\ Forall turn_ok (chatHistory (addMessageToHistory m p)).
Proof.
  intros Hb Hr Hf. destruct (addMessageToHistory_drop m p Hb) as [k ->].
  split.
  - right. by eexists _, m.
  - apply Forall_app. split; [by apply Forall_drop|].
    constructor; [|constructor]. split; rewrite Hr; done.
Qed.

Lemma trimmed_trim s : Js.trim s <> [] -> trimmed (Js.trim s).
Proof. intros H. split; [done|apply trim_idem]. Qed.

Lemma send_ok dm text p :
  0 <= maxHistory p ->
  ends_with_assistant (chatHistory p) -> Forall turn_ok (chatHistory p) ->
  ends_with_assistant (chatHistory (send dm text p).1)
  /\ Forall turn_ok (chatHistory (send dm text p).1).
Proof.
  intros Hb He Hf. destruct (decide (Js.trim text = [])) as [E|E].
  - by rewrite send_blank.
  - rewrite send_nonblank by done. cbn [fst].
    apply addMessageToHistory_ok; [|done|].
    + unfold showTypingIndicator.
      by rewrite maxHistory_postMessage, maxHistory_updateWebview,
        maxHistory_addMessageToHistory.
    + unfold showTypingIndicator.
      rewrite chatHistory_postMessage, chatHistory_updateWebview.
      destruct (addMessageToHistory_drop (userTurn text) p Hb) as [k ->].
      apply Forall_app. split; [by apply Forall_drop|].
      constructor; [|constructor]. split; [done|].
      intros _. by apply trimmed_trim.
Qed.

Lemma pop_assistant_prefix h : exists rest, h = pop_assistant h ++ rest.
Proof.
  unfold pop_assistant. destruct (last h) as [[[] c]|] eqn:E;
    try (exists []; by rewrite app_nil_r).
  exists (drop (length h - 1) h). by rewrite take_drop.
Qed.

Lemma step_ok p p' :
  0 <= maxHistory p -> step p p' ->
  ends_with_assistant (chatHistory p) -> Forall turn_ok (chatHistory p) ->
  ends_with_assistant (chatHistory p') /\ Forall turn_ok (chatHistory p').
Proof.
  intros Hb [dm text|chunk acc|acc|message acc| |] He Hf.
  - by apply send_ok.
  - rewrite chatHistory_chunk_callback. by apply set_last_content_ok.
  - rewrite chatHistory_resolved. by apply set_last_content_ok.
  - rewrite chatHistory_rejected. apply addMessageToHistory_ok; [done|done|].
    cbn. destruct (pop_assistant_prefix (chatHistory p)) as [rest Hp].
    rewrite Hp in Hf. by apply Forall_app in Hf as [Hf _].
  - rewrite chatHistory_clearChat. split; [by left|constructor].
  - done.
Qed.

Lemma reachable_ok b v p :
  0 <= b -> reachable b v p ->
  ends_with_assistant (chatHistory p) /\ Forall turn_ok (chatHistory p).
Proof.
  intros Hb. unfold reachable. revert p. apply rtc_ind_r.
  - split; [by left|constructor].
  - intros p2 p3 H12 Hs [He Hf].
    apply (step_ok p2 p3); try done.
    by rewrite (reachable_maxHistory b v p2).
Qed.

(** X10: whatever sends, deliveries of streams, failures and clears
    happen, and in whatever order, under one value of the setting that is
    not negative, the history of the provider never holds
    a [system] turn, every user's turn in it holds a text that is not
    empty and has no white space at its ends, and the history is empty or
    ends with an assistant's turn. *)
Theorem history_invariant b v p :
  0 <= b -> reachable b v p ->
  ends_with_assistant (chatHistory p) /\ Forall turn_ok (chatHistory p).
Proof. apply reachable_ok. Qed.

Lemma history_invariant_witness :
  let p := (chunk_callback (str "Hi")
              ([], (send (str "m") (str " Hello ") (init 20 true)).1)).2 in
  ends_with_assistant (chatHistory p) /\ Forall turn_ok (chatHistory p).
Proof.
  intros p. apply (history_invariant 20 true p); [lia|].
  unfold reachable, p.
  eapply rtc_l; [apply (step_send _ (str "m") (str " Hello "))|].
  eapply rtc_l; [apply (step_chunk _ (str "Hi") [])|].
  apply rtc_refl.
Defined.

Lemma addMessageToHistory_bounded m p :
  1 <= maxHistory p ->
  Z.of_nat (length (chatHistory (addMessageToHistory m p)))
  <= 2 * maxHistory p.
Proof.
  intros Hb. rewrite addMessageToHistory_keep_last by done.
  rewrite keep_last_length. lia.
Qed.

Lemma set_last_content_length s p :
  length (chatHistory (set_last_content s p)) = length (chatHistory p).
Proof.
  destruct (set_last_content_same s p) as [Hr _].
  apply (f_equal length) in Hr. by rewrite !length_map in Hr.
Qed.

Lemma step_bounded p p' :
  1 <= maxHistory p -> step p p' ->
  Z.of_nat (length (chatHistory p)) <= 2 * maxHistory p ->
  Z.of_nat (length (chatHistory p')) <= 2 * maxHistory p.
Proof.
  intros Hb [dm text|chunk acc|acc|message acc| |] Hl.
  - destruct (decide (Js.trim text = [])) as [E|E].
    + by rewrite send_blank.
    + rewrite send_nonblank by done. cbn [fst].
      pose proof (addMessageToHistory_bounded placeholder
                    (showTypingIndicator
                       (updateWebview
                          (addMessageToHistory (userTurn text) p)))) as H.
      unfold showTypingIndicator in *.
      rewrite maxHistory_postMessage, maxHistory_updateWebview,
        maxHistory_addMessageToHistory in H. by apply H.
  - by rewrite chatHistory_chunk_callback, set_last_content_length.
  - by rewrite chatHistory_resolved, set_last_content_length.
  - rewrite chatHistory_rejected.
    by apply (addMessageToHistory_bounded _ (set_history _ p)).
  - rewrite chatHistory_clearChat. simpl. lia.
  - done.
Qed.

(** X11: under a bound of at least one pair, whatever sends, deliveries,
    failures and clears happen, and in whatever order, the history never
    holds more than [2 * maxHistory] turns. *)
Theorem history_stays_within_bound b v p :
  1 <= b -> reachable b v p ->
  Z.of_nat (length (chatHistory p)) <= 2 * b.
Proof.
  intros Hb. unfold reachable. revert p. apply rtc_ind_r; [simpl; lia|].
  intros p2 p3 H12 Hs IH.
  pose proof (reachable_maxHistory b v p2 H12) as Hm.
  rewrite <- Hm. apply (step_bounded p2 p3); rewrite ?Hm; done.
Qed.

Lemma history_stays_within_bound_witness :
  Z.of_nat
    (length
       (chatHistory
          (send (str "m") (str "two")
             (send (str "m") (str "one") (init 1 true)).1).1))
  <= 2 * 1.
Proof.
  apply (history_stays_within_bound 1 true); [lia|].
  unfold reachable.
  eapply rtc_l; [apply (step_send _ (str "m") (str "one"))|].
  eapply rtc_l; [apply (step_send _ (str "m") (str "two"))|].
  apply rtc_refl.
Defined.

(** X12: in every state the provider can be in, a fragment, of
    whichever stream, changes nothing but the content of the last turn,
    and that turn is an assistant's: no fragment ever changes a user's
    turn, and on an empty history it changes nothing. *)
Theorem fragment_changes_last_assistant_turn b v p chunk acc :
  0 <= b -> reachable b v p ->
  (chatHistory p = []
   /\ chatHistory (chunk_callback chunk (acc, p)).2 = [])
  \/ (exists h m,
        chatHistory p = h ++ [m] /\ role m = assistant
        /\ chatHistory (chunk_callback chunk (acc, p)).2
           = h ++ [{| role := assistant; content := acc ++ chunk |}]).
Proof.
  intros Hb Hr. destruct (reachable_ok b v p Hb Hr) as [[Hn|(h & m & Hh & Hm)] _].
  - left. split; [done|].
    by rewrite chatHistory_chunk_callback, set_last_content_nil.
  - right. exists h, m. split; [done|]. split; [done|].
    rewrite chatHistory_chunk_callback, (set_last_content_snoc _ p h m Hh).
    by rewrite Hm.
Qed.

Lemma fragment_changes_last_assistant_turn_witness :
  let p := (send (str "m") (str "Hello") (init 20 true)).1 in
  (chatHistory p = []
   /\ chatHistory (chunk_callback (str "Hi") ([], p)).2 = [])
  \/ (exists h m,
        chatHistory p = h ++ [m] /\ role m = assistant
        /\ chatHistory (chunk_callback (str "Hi") ([], p)).2
           = h ++ [{| role := assistant; content := [] ++ str "Hi" |}]).
Proof.
  intros p. apply (fragment_changes_last_assistant_turn 20 true); [lia|].
  unfold reachable, p.
  eapply rtc_l; [apply (step_send _ (str "m") (str "Hello"))|].
  apply rtc_refl.
Defined.

(** X13: two sends one after the other, before anything of the first
    exchange has arrived. A fragment of the first stream is then stored in
    the turn of the second exchange, and the placeholder of the first
    exchange stays as it is; [acc] is what the callback of the first
    exchange had accumulated. *)
Theorem superseded_fragment_lands_in_newest_turn dm text1 text2 p chunk acc :
  1 <= maxHistory p -> Js.trim text1 <> [] -> Js.trim text2 <> [] ->
  chatHistory
    (chunk_callback chunk (acc, (send dm text2 (send dm text1 p).1).1)).2
  = keep_last (Z.to_nat (2 * maxHistory p))
      (chatHistory p
       ++ [userTurn text1; placeholder; userTurn text2;
           {| role := assistant; content := acc ++ chunk |}]).
Proof.
  intros Hb H1 H2.
  pose proof (send_history dm text2 (send dm text1 p).1) as Hs.
  rewrite maxHistory_send in Hs. specialize (Hs Hb H2).
  rewrite (send_history dm text1 p Hb H1) in Hs.
  rewrite keep_last_app, <- app_assoc in Hs. cbn [app] in Hs.
  destruct (Z.to_nat (2 * maxHistory p)) as [|n] eqn:En; [lia|].
  change [userTurn text1; placeholder; userTurn text2; placeholder]
    with ([userTurn text1; placeholder; userTurn text2] ++ [placeholder])
    in Hs.
  rewrite app_assoc, keep_last_snoc in Hs.
  rewrite chatHistory_chunk_callback, (set_last_content_snoc _ _ _ _ Hs).
  change [userTurn text1; placeholder; userTurn text2;
          {| role := assistant; content := acc ++ chunk |}]
    with ([userTurn text1; placeholder; userTurn text2]
          ++ [{| role := assistant; content := acc ++ chunk |}]).
  by rewrite app_assoc, keep_last_snoc.
Qed.

Lemma superseded_fragment_lands_in_newest_turn_witness :
  chatHistory
    (chunk_callback (str "Hi")
       ([], (send (str "m") (str "two")
               (send (str "m") (str "one") (init 20 true)).1).1)).2
  = keep_last (Z.to_nat (2 * maxHistory (init 20 true)))
      (chatHistory (init 20 true)
       ++ [userTurn (str "one"); placeholder; userTurn (str "two");
           {| role := assistant; content := [] ++ str "Hi" |}]).
Proof.
  apply superseded_fragment_lands_in_newest_turn;
    [simpl; lia | vm_compute; discriminate | vm_compute; discriminate].
Defined.

(** X14: when a request fails after the chat was cleared, the error turn
    is appended all the same: the history that was empty then holds the
    error turn and nothing else. *)
Theorem failure_after_clear_leaves_error_turn message acc p :
  0 <= maxHistory p ->
  chatHistory (rejected message (acc, clearChat p)).2
  = [{| role := assistant; content := str "Error: " ++ message |}].
Proof.
  intros Hb. rewrite chatHistory_rejected, chatHistory_clearChat.
  change (pop_assistant []) with (@nil OllamaMessage).
  set (q := set_history [] (clearChat p)).
  assert (Hq : maxHistory q = maxHistory p).
  { unfold q, clearChat. cbn. by rewrite maxHistory_updateWebview. }
  destruct (decide (maxHistory p = 0)) as [H0|H0].
  - by rewrite addMessageToHistory_zero by congruence.
  - rewrite addMessageToHistory_keep_last by lia.
    rewrite Hq. apply keep_last_all. unfold q. simpl length. lia.
Qed.

Lemma failure_after_clear_leaves_error_turn_witness :
  chatHistory
    (rejected (str "Failed to stream chat completion: timeout")
       ([], clearChat (send (str "m") (str "Hello") (init 20 true)).1)).2
  = [{| role := assistant;
        content := str "Error: "
                   ++ str "Failed to stream chat completion: timeout" |}].
Proof.
  apply failure_after_clear_leaves_error_turn. simpl. lia.
Defined.

End SessionInvariants.

(** ** The chat view *)

Section ViewProperties.

Import OllamaApi OllamaChatProvider ChatView.

Implicit Types (p : t) (container : list node).

Lemma indicators_updateMessagesView messages :
  indicators (updateMessagesView messages) = 0%nat.
Proof.
  unfold updateMessagesView, indicators. destruct messages as [|m l]; [done|].
  by induction (m :: l).
Qed.

Lemma indicators_none container :
  existsb is_typing_indicator container = false -> indicators container = 0%nat.
Proof.
  unfold indicators. induction container as [|n l IH]; [done|]. simpl.
  destruct (is_typing_indicator n); [done|]. exact IH.
Qed.

Lemma indicators_remove container :
  (indicators (remove_first_indicator container) <= indicators container)%nat.
Proof.
  unfold indicators. induction container as [|n l IH]; [done|].
  destruct n; simpl in *; lia.
Qed.

Lemma receive_indicators container m :
  (indicators container <= 1)%nat -> (indicators (receive container m) <= 1)%nat.
Proof.
  intros H. destruct m as [messages| |]; simpl.
  - rewrite indicators_updateMessagesView. lia.
  - unfold ChatView.showTypingIndicator.
    destruct (existsb is_typing_indicator container) eqn:E; [done|].
    unfold indicators in *. rewrite List.filter_app, length_app.
    fold (indicators container). rewrite (indicators_none _ E). simpl. lia.
  - unfold ChatView.hideTypingIndicator. pose proof (indicators_remove container). lia.
Qed.

(** X17: whatever messages the provider posts, and however often it asks
    for the typing indicator, the view never shows more than one. *)
Theorem at_most_one_typing_indicator posted :
  (length (List.filter is_typing_indicator (shown posted)) <= 1)%nat.
Proof.
  unfold shown. change (indicators (fold_left receive posted initial) <= 1)%nat.
  assert (H : (indicators initial <= 1)%nat) by (vm_compute; lia).
  revert H. generalize initial.
  induction posted as [|m l IH]; intros c H; [done|].
  simpl. apply IH. by apply receive_indicators.
Qed.

Lemma posted_updateWebview p :
  view p = true ->
  posted (updateWebview p) = posted p ++ [updateMessages (chatHistory p)].
Proof. intros Hv. unfold updateWebview, postMessage. by rewrite Hv. Qed.

Lemma posted_postMessage m p :
  view p = true -> posted (postMessage m p) = posted p ++ [m].
Proof. intros Hv. unfold postMessage. by rewrite Hv. Qed.

Lemma view_postMessage m p : view (postMessage m p) = view p.
Proof. unfold postMessage. by destruct (view p) eqn:E. Qed.

Lemma view_set_last_content s p : view (set_last_content s p) = view p.
Proof. unfold set_last_content. by case_match. Qed.

Lemma view_addMessageToHistory m p : view (addMessageToHistory m p) = view p.
Proof. unfold addMessageToHistory. by case_match. Qed.

Lemma shown_snoc_update l h :
  shown (l ++ [updateMessages h]) = updateMessagesView h.
Proof. unfold shown. by rewrite fold_left_app. Qed.

(** X18: with the view attached, after every fragment, after the
    continuation of a resolved or rejected stream and after a clear, the
    view shows exactly the history as it then is, one element per turn in
    order (or the welcome text for the empty history), and no typing
    indicator. *)
Theorem view_shows_history_after_delivery p :
  view p = true ->
  (forall chunk acc,
      let p' := (chunk_callback chunk (acc, p)).2 in
      shown (posted p') = updateMessagesView (chatHistory p'))
  /\ (forall acc,
        let p' := (resolved (acc, p)).2 in
        shown (posted p') = updateMessagesView (chatHistory p'))
  /\ (forall message acc,
        let p' := (rejected message (acc, p)).2 in
        shown (posted p') = updateMessagesView (chatHistory p'))
  /\ shown (posted (clearChat p)) = updateMessagesView (chatHistory (clearChat p)).
Proof.
  intros Hv. split_and!.
  - intros chunk acc. unfold chunk_callback. cbn [snd]. cbv zeta.
    rewrite chatHistory_updateWebview, posted_updateWebview
      by (by rewrite view_set_last_content).
    apply shown_snoc_update.
  - intros acc. unfold resolved. cbn [snd]. cbv zeta.
    rewrite chatHistory_updateWebview, posted_updateWebview
      by (unfold OllamaChatProvider.hideTypingIndicator;
          by rewrite view_postMessage, view_set_last_content).
    apply shown_snoc_update.
  - intros message acc. unfold rejected. cbn [snd]. cbv zeta.
    rewrite chatHistory_updateWebview, posted_updateWebview
      by (unfold OllamaChatProvider.hideTypingIndicator;
          by rewrite view_postMessage, view_addMessageToHistory).
    apply shown_snoc_update.
  - unfold clearChat.
    rewrite chatHistory_updateWebview, posted_updateWebview by done.
    apply shown_snoc_update.
Qed.

Lemma view_shows_history_after_delivery_witness :
  let p := (send (str "m") (str "Hello") (init 20 true)).1 in
  (forall chunk acc,
      let p' := (chunk_callback chunk (acc, p)).2 in
      shown (posted p') = updateMessagesView (chatHistory p'))
  /\ (forall acc,
        let p' := (resolved (acc, p)).2 in
        shown (posted p') = updateMessagesView (chatHistory p'))
  /\ (forall message acc,
        let p' := (rejected message (acc, p)).2 in
        shown (posted p') = updateMessagesView (chatHistory p'))
  /\ shown (posted (clearChat p)) = updateMessagesView (chatHistory (clearChat p)).
Proof.
  intros p. apply (view_shows_history_after_delivery p). reflexivity.
Defined.

(** X19: with the view attached, when a send with a text that is not
    blank has begun, the view shows the messages of the request, the
    user's new turn included, followed by the typing indicator; the
    placeholder of the exchange is not shown. *)
Theorem view_after_send dm text p :
  view p = true -> Js.trim text <> [] ->
  exists req,
    (send dm text p).2 = Some req
    /\ shown (posted (send dm text p).1)
       = updateMessagesView (messages req) ++ [typing_indicator].
Proof.
  intros Hv Hne. rewrite send_nonblank by done. cbn [fst snd].
  eexists. split; [reflexivity|]. cbn [messages].
  set (p1 := addMessageToHistory (userTurn text) p).
  assert (Hv1 : view p1 = true) by (unfold p1; by rewrite view_addMessageToHistory).
  assert (posted (addMessageToHistory placeholder
                    (OllamaChatProvider.showTypingIndicator
                       (updateWebview p1)))
          = posted (OllamaChatProvider.showTypingIndicator
                      (updateWebview p1))) as ->.
  { unfold addMessageToHistory. by case_match. }
  unfold OllamaChatProvider.showTypingIndicator.
  rewrite posted_postMessage
    by (unfold updateWebview; by rewrite view_postMessage).
  rewrite posted_updateWebview by done.
  unfold shown. rewrite !fold_left_app. cbn [fold_left receive].
  unfold ChatView.showTypingIndicator.
  pose proof (indicators_updateMessagesView (chatHistory p1)) as Hi.
  destruct (existsb is_typing_indicator (updateMessagesView (chatHistory p1)))
    eqn:E; [|done].
  exfalso. apply existsb_exists in E as (n & Hin & Hn).
  unfold indicators in Hi. apply length_zero_iff_nil in Hi.
  assert (In n (List.filter is_typing_indicator
                  (updateMessagesView (chatHistory p1)))) as Hf
    by (apply filter_In; by split).
  by rewrite Hi in Hf.
Qed.

Lemma view_after_send_witness :
  exists req,
    (send (str "m") (str "Hello") (init 20 true)).2 = Some req
    /\ shown (posted (send (str "m") (str "Hello") (init 20 true)).1)
       = updateMessagesView (messages req) ++ [typing_indicator].
Proof.
  apply view_after_send; [reflexivity | vm_compute; discriminate].
Defined.

End ViewProperties.

(** ** The commands and the first choice of a model *)

Section CommandProperties.

Import OllamaCommandManager.

(** X20: the toggle goes by the flag of the command manager, which does
    not follow the setting. After the toggle the provider and the manager
    agree; but when the setting was changed from outside to the opposite
    of the manager's flag, the toggle leaves the provider as the outside
    change had set it: completions are not switched. *)
Theorem toggle_goes_by_manager_flag f v updated :
  completionsEnabled f = negb v ->
  let changed := onDidChangeConfiguration v f in
  let toggled := toggleCompletions updated changed in
  isEnabled toggled = isEnabled changed
  /\ isEnabled toggled = completionsEnabled toggled
  /\ (updated = true -> setting toggled = isEnabled toggled).
Proof.
  intros Hf. destruct f as [m i s]. simpl in *. subst.
  by destruct v, updated.
Qed.

Lemma toggle_goes_by_manager_flag_witness :
  let f := {| completionsEnabled := true; isEnabled := true;
              setting := true |} in
  let changed := onDidChangeConfiguration false f in
  let toggled := toggleCompletions true changed in
  isEnabled toggled = isEnabled changed
  /\ isEnabled toggled = completionsEnabled toggled
  /\ (true = true -> setting toggled = isEnabled toggled).
Proof.
  intros f. apply (toggle_goes_by_manager_flag f false true). reflexivity.
Defined.

End CommandProperties.

Section ModelChoice.

Import OllamaConfigurationProvider.

Lemma starts_with_spec needle s :
  starts_with needle s = true <-> exists post, s = needle ++ post.
Proof.
  revert s. induction needle as [|c r IH]; intros s; simpl.
  - split; [by exists s|done].
  - destruct s as [|x s']; [split; [done|by intros [post H]]|].
    rewrite andb_true_iff, N.eqb_eq, IH. split.
    + intros [-> [post ->]]. by exists post.
    + intros [post [= -> ->]]. split; [done|by exists post].
Qed.

(** [includes] is the search for a piece. *)
Lemma includes_spec s needle :
  includes s needle = true <-> exists pre post, s = pre ++ needle ++ post.
Proof.
  induction s as [|x s' IH]; simpl.
  - rewrite orb_false_r, starts_with_spec. split.
    + intros [post H]. by exists [], post.
    + intros (pre & post & H). destruct pre; [by exists post|done].
  - rewrite orb_true_iff, starts_with_spec, IH. split.
    + intros [[post H]|(pre & post & H)].
      * by exists [], post.
      * exists (x :: pre), post. simpl. by rewrite H.
    + intros ([|y pre] & post & H).
      * left. by exists post.
      * right. injection H as -> ->. by exists pre, post.
Qed.

Lemma pick_in preferred models defaultModel :
  pick preferred models defaultModel = defaultModel
  \/ In (pick preferred models defaultModel) models.
Proof.
  induction preferred as [|p rest IH]; simpl; [by left|].
  destruct (find (fun name => includes name p) models) as [found|] eqn:E;
    [|done].
  right. by apply find_some in E as [H _].
Qed.

(** X21: the model that [initializeConfiguration] asks the settings to
    store is always one of the models the service lists, and it only asks
    when no model is set. *)
Theorem initial_model_is_installed model getModels name :
  initializeConfiguration model getModels = Some name ->
  exists models,
    getModels = ok models /\ In name models
    /\ (model = None \/ model = Some []).
Proof.
  unfold initializeConfiguration. intros H.
  assert (Hm : model = None \/ model = Some []).
  { destruct model as [[|c r]|]; [by right|done|by left]. }
  assert (H' : match getModels with
               | ok (first :: others) =>
                   Some (pick preferredModels (first :: others) first)
               | _ => None
               end = Some name).
  { by destruct Hm as [-> | ->]. }
  destruct getModels as [[|first others]|e]; try done.
  assert (Hn : pick preferredModels (first :: others) first = name)
    by congruence.
  exists (first :: others). split; [done|]. split; [|done].
  rewrite <- Hn.
  destruct (pick_in preferredModels (first :: others) first) as [E | Hin];
    [rewrite E; by left|done].
Qed.

Lemma initial_model_is_installed_witness :
  exists models,
    ok (A := list (list N)) [str "mistral:7b"; str "codellama:13b"]
    = ok models
    /\ In (str "codellama:13b") models
    /\ (@None (list N) = None \/ @None (list N) = Some []).
Proof.
  apply (initial_model_is_installed None
           (ok [str "mistral:7b"; str "codellama:13b"])).
  vm_compute. reflexivity.
Defined.

Lemma pick_priority before p after models defaultModel found :
  (forall q name, In q before -> In name models -> includes name q = false) ->
  find (fun name => includes name p) models = Some found ->
  pick (before ++ p :: after) models defaultModel = found.
Proof.
  intros Hb Hf. induction before as [|q rest IH]; simpl.
  - by rewrite Hf.
  - destruct (find (fun name => includes name q) models) as [x|] eqn:E.
    + apply find_some in E as [Hin Hx].
      rewrite (Hb q x) in Hx; [done|by left|done].
    + apply IH. intros q' name Hq. apply Hb. by right.
Qed.

(** X22: the preferred names decide in their order. When no model is
    set and the service lists models, the earliest preferred name that
    the name of some listed model includes decides, and the first listed
    model whose name includes it is the one given to the settings. *)
Theorem initial_model_priority model models before p after found :
  model = None \/ model = Some [] ->
  preferredModels = before ++ p :: after ->
  (forall q name, In q before -> In name models -> includes name q = false) ->
  find (fun name => includes name p) models = Some found ->
  initializeConfiguration model (ok models) = Some found.
Proof.
  intros Hm Hp Hb Hf. unfold initializeConfiguration.
  assert (Hmodels : models <> []) by (by destruct models).
  destruct models as [|first others]; [done|].
  rewrite Hp, (pick_priority before p after _ first found Hb Hf).
  by destruct Hm as [-> | ->].
Qed.

Lemma initial_model_priority_witness :
  initializeConfiguration None
    (ok [str "mistral:7b"; str "codellama:13b"; str "codellama:7b"])
  = Some (str "codellama:13b").
Proof.
  apply (initial_model_priority None
           [str "mistral:7b"; str "codellama:13b"; str "codellama:7b"]
           [str "llama3.2"; str "llama3.1"; str "llama3"]
           (str "codellama") [str "mistral"]).
  - by left.
  - reflexivity.
  - intros q name Hq Hn.
    repeat (destruct Hq as [<-|Hq];
            [repeat (destruct Hn as [<-|Hn]; [vm_compute; reflexivity|]);
             destruct Hn|]).
    destruct Hq.
  - vm_compute. reflexivity.
Defined.

End ModelChoice.

Section CompletionEdges.

Import OllamaCompletionProvider.

Lemma for_range_length a b : length (for_range a b) = Z.to_nat (b - a + 1).
Proof. unfold for_range. by rewrite length_map, length_seq. Qed.

(** X23: [getContextLines] never throws, wherever the cursor is said to
    be, on a line of the document or not, and it gives at most sixteen
    lines. *)
Theorem getContextLines_total document position :
  exists contextLines,
    getContextLines document position = Some contextLines
    /\ (length contextLines <= 16)%nat.
Proof.
  unfold getContextLines. cbv zeta.
  set (f := fun i : Z => if i =? line position then _ else _).
  set (a := Z.max 0 (line position - 10)).
  set (b := Z.min (lineCount document - 1) (line position + 5)).
  assert (Hs : is_Some (mapM f (for_range a b))).
  { apply mapM_is_Some, Forall_forall. intros i Hi.
    apply elem_of_for_range in Hi.
    assert (Hl : is_Some (lineAt document i)).
    { rewrite lineAt_in_range by lia. apply lookup_lt_is_Some.
      unfold lineCount in *. lia. }
    destruct Hl as [t Ht]. unfold f. cbn. rewrite Ht.
    by destruct (i =? line position). }
  destruct Hs as [ls Hls]. exists ls. split; [done|].
  apply length_mapM in Hls. rewrite <- Hls, for_range_length. lia.
Qed.

Lemma strip_fence_close_end x :
  strip_fence_close (x ++ Js.LF :: str "```") = x.
Proof.
  induction x as [|c r IH].
  - reflexivity.
  - cbn [app strip_fence_close].
    assert (Js.eqb (c :: r ++ Js.LF :: str "```") (Js.LF :: str "```")
            = false) as ->.
    { unfold Js.eqb. apply bool_decide_eq_false. intros E.
      apply (f_equal length) in E. simpl in E. rewrite length_app in E.
      simpl in E. lia. }
    assert (Js.eqb (c :: r ++ Js.LF :: str "```") (str "```") = false) as ->.
    { unfold Js.eqb. apply bool_decide_eq_false. intros E.
      apply (f_equal length) in E. simpl in E. rewrite length_app in E.
      simpl in E. lia. }
    cbn [orb]. by rewrite IH.
Qed.

Lemma skip_while_word lang rest :
  Forall (fun c => Js.is_word c = true) lang ->
  Js.skip_while Js.is_word (lang ++ Js.LF :: rest) = Js.LF :: rest.
Proof.
  induction 1 as [|c r Hc _ IH]; [done|]. simpl. by rewrite Hc.
Qed.

Lemma strip_fence_open_fenced lang rest :
  Forall (fun c => Js.is_word c = true) lang ->
  strip_fence_open (96 :: 96 :: 96 :: lang ++ Js.LF :: rest)%N = rest.
Proof.
  intros H. cbn [strip_fence_open]. by rewrite skip_while_word.
Qed.

Lemma trimStart_ws_app pre s :
  Forall (fun c => Js.is_ws c = true) pre ->
  Js.trimStart (pre ++ s) = Js.trimStart s.
Proof. induction 1 as [|c r Hc _ IH]; [done|]. simpl. by rewrite Hc. Qed.

(** [trim] takes away the white space around a string that begins and
    ends with something else. *)
Lemma trim_ws_around pre c r post :
  Forall (fun c => Js.is_ws c = true) pre ->
  Forall (fun c => Js.is_ws c = true) post ->
  Js.is_ws c = false ->
  Js.trimStart (rev (c :: r)) = rev (c :: r) ->
  Js.trim (pre ++ (c :: r) ++ post) = c :: r.
Proof.
  intros Hpre Hpost Hc Hlast. unfold Js.trim.
  rewrite trimStart_ws_app by done.
  assert (Js.trimStart ((c :: r) ++ post) = (c :: r) ++ post) as ->.
  { simpl. by rewrite Hc. }
  unfold Js.trimEnd.
  rewrite rev_app_distr, trimStart_ws_app by (by apply Forall_rev).
  by rewrite Hlast, rev_involutive.
Qed.

(** X24: the usual shape of an answer, a code fence with a language tag
    made of word characters around some lines, with or without white
    space around the whole: what is kept is the first line inside the
    fence, without the white space in front of it. *)
Theorem fenced_answer_is_unwrapped pre lang body post :
  Forall (fun c => Js.is_ws c = true) pre ->
  Forall (fun c => Js.is_ws c = true) post ->
  Forall (fun c => Js.is_word c = true) lang ->
  cleanCompletion
    (pre ++ (str "```" ++ lang ++ Js.LF :: body ++ Js.LF :: str "```") ++ post)
  = Js.trimStart (hd [] (Js.split Js.LF body)).
Proof.
  intros Hpre Hpost Hlang.
  destruct (split_head Js.LF body) as (first & rest & tail & Hs & _ & _).
  rewrite Hs. cbn [hd]. apply (cleanCompletion_first_line _ first rest).
  set (r := ([96; 96]%N ++ lang ++ Js.LF :: body ++ Js.LF :: str "```")).
  assert (E : str "```" ++ lang ++ Js.LF :: body ++ Js.LF :: str "```"
              = 96%N :: r) by reflexivity.
  assert (E2 : 96%N :: r
               = (str "```" ++ lang ++ Js.LF :: body) ++ Js.LF :: str "```").
  { unfold r. rewrite <- !app_assoc. reflexivity. }
  rewrite E, trim_ws_around; try done.
  - unfold r. cbn [app]. rewrite strip_fence_open_fenced by done.
    by rewrite strip_fence_close_end.
  - rewrite E2, rev_app_distr. reflexivity.
Qed.

Lemma fenced_answer_is_unwrapped_witness :
  cleanCompletion
    ([Js.LF] ++ (str "```" ++ str "python" ++ Js.LF
                 :: (str "    return x" ++ Js.LF :: str "print(x)")
                 ++ Js.LF :: str "```") ++ [32%N])
  = Js.trimStart
      (hd [] (Js.split Js.LF (str "    return x" ++ Js.LF :: str "print(x)"))).
Proof.
  apply fenced_answer_is_unwrapped.
  - by repeat constructor.
  - by repeat constructor.
  - vm_compute. by repeat constructor.
Defined.

End CompletionEdges.

(** ** Instances *)

Section Instances.

Import OllamaApi OllamaChatProvider OllamaCompletionProvider.

Lemma getSuffix_window_witness :
  getSuffix
    {| lines := [str "let x = 1;"; str "let y = 2;"];
       languageId := str "javascript"; fileName := str "/src/a.js" |}
    {| line := 0; character := 3 |}
  = Some (Js.trim
            (Js.join Js.LF
               (Js.substring_from (str "let x = 1;") 3
                :: lines_between
                     {| lines := [str "let x = 1;"; str "let y = 2;"];
                        languageId := str "javascript";
                        fileName := str "/src/a.js" |}
                     (0 + 1) (Z.min (2 - 1) (0 + 3))))).
Proof.
  apply (getSuffix_window
           {| lines := [str "let x = 1;"; str "let y = 2;"];
              languageId := str "javascript"; fileName := str "/src/a.js" |}
           {| line := 0; character := 3 |} (str "let x = 1;")).
  reflexivity.
Defined.

Lemma connection_failure_rolls_back_witness :
  exists p',
    handleSendMessage (str "m") (str "Hello")
      (post_rejected (str "Error: connect ECONNREFUSED")) (init 20 true)
    = Some p'
    /\ chatHistory p'
       = keep_last (Z.to_nat (2 * maxHistory (init 20 true)))
           (chatHistory (init 20 true)
            ++ [userTurn (str "Hello");
                {| role := assistant;
                   content := str "Error: "
                              ++ str "Failed to stream chat completion: "
                              ++ str "Error: connect ECONNREFUSED" |}]).
Proof.
  apply connection_failure_rolls_back;
    [simpl; lia | vm_compute; discriminate].
Defined.

Lemma history_after_exchanges_witness :
  exists p',
    handleSendMessages (str "m")
      [(str "one", post_response
                     [data (wire "{'message':{'content':'uno'}}" ++ [Js.LF])]);
       (str "two", post_rejected (str "timeout"));
       (str "three", post_response
                       [data (wire "{'message':{'content':'tres'}}"
                              ++ [Js.LF]); end_])]
      (init 2 true) = Some p'
    /\ chatHistory p'
       = concat
           (keep_last (Z.to_nat 2)
              [[{| role := user; content := str "one" |};
                {| role := assistant; content := str "uno" |}];
               [{| role := user; content := str "two" |};
                {| role := assistant;
                   content := str "Error: Failed to stream chat completion: timeout" |}];
               [{| role := user; content := str "three" |};
                {| role := assistant; content := str "tres" |}]])
    /\ length (chatHistory p') = (Nat.min 3 (Z.to_nat 2) * 2)%nat.
Proof.
  apply (history_after_exchanges (str "m")
           [(str "one", post_response
                          [data (wire "{'message':{'content':'uno'}}"
                                 ++ [Js.LF])]);
            (str "two", post_rejected (str "timeout"));
            (str "three", post_response
                            [data (wire "{'message':{'content':'tres'}}"
                                   ++ [Js.LF]); end_])]).
  - lia.
  - repeat constructor; vm_compute; discriminate.
  - vm_compute. reflexivity.
Defined.

End Instances.
